(** * Logic-Circuit-Simulator: four-valued ALU, RAM, nodes and node-id
      serialisation, as a shallow embedding of the TypeScript sources.

    Sources embedded here:
    - [simulator/src/components/ALU.ts]        (module [ALU])
    - the RAM component, 16 words of 4 bits    (module [RAM])
    - [simulator/src/components/Node.ts]       (module [Node])
    - [simulator/src/components/Component.ts]  (module [Component])

    Conventions.  A component reads its input nodes only through
    [this.inputs[i].value]; the visible values of the input nodes are
    therefore given as a function [i ↦ this.inputs[i].value].  JavaScript
    [for] loops over an index are rendered with [for_loop]; array reads
    that JavaScript answers with [undefined] are rendered in the option
    monad. *)

From Stdlib Require Import ZArith Lia Ascii String.
From stdpp Require Import base tactics option list strings.

Local Open Scope Z_scope.
Local Open Scope nat_scope.

(** ** The four-valued signal domain *)

(** Modelled from the spec: [utils.ts] (the declaration of [LogicValue],
    [Unknown], [HighImpedance], [isUnknown], [isHighImpedance]) is not among
    the sources.  Section 3 of the specification gives the domain as
    {false, true, Unknown, HighImpedance}; the sources use the two
    indeterminate values as distinct [switch] labels and test them with two
    distinct predicates. *)
Inductive LogicValue : Type :=
  | LBool (b : bool)
  | Unknown
  | HighImpedance.

#[global] Instance LogicValue_eq_dec : EqDecision LogicValue.
Proof. solve_decision. Defined.

(** Dead default of total array reads (see [for_loop] users below). *)
#[global] Instance LogicValue_inhabited : Inhabited LogicValue :=
  populate (LBool false).

(** Modelled from the spec: [utils.isUnknown], [v === Unknown]. *)
Definition isUnknown (v : LogicValue) : bool :=
  match v with Unknown => true | _ => false end.

(** Modelled from the spec: [utils.isHighImpedance],
    [v === HighImpedance]. *)
Definition isHighImpedance (v : LogicValue) : bool :=
  match v with HighImpedance => true | _ => false end.

(** [v === w] on logic values. *)
Definition strict_eq (v w : LogicValue) : bool := bool_decide (v = w).
Infix "===" := strict_eq (at level 70, no associativity).

(** The words of the specification: a value is indeterminate when it is
    Unknown or HighImpedance. *)
Definition indeterminate (v : LogicValue) : Prop :=
  v = Unknown ∨ v = HighImpedance.

#[global] Instance indeterminate_dec v : Decision (indeterminate v).
Proof. unfold indeterminate. apply _. Defined.

(** The visible values of a component's input nodes. *)
Definition Inputs : Type := nat → LogicValue.

(** [ComponentBase.inputValues(inds)]: [inds.map(i => this.inputs[i].value)]. *)
Definition inputValues (inputs : Inputs) (inds : list nat) : list LogicValue :=
  inputs <$> inds.

(** Inputs given by a list; a node that is not listed is unconnected and
    reads [false]. *)
Definition inputs_of_list (l : list LogicValue) : Inputs :=
  λ i, default (LBool false) (l !! i).

(** [for (let i = start; i < start + n; i++) s = body(i, s)]. *)
Fixpoint for_loop {St : Type} (start n : nat) (body : nat → St → St) (s : St) : St :=
  match n with
  | O => s
  | S n' => for_loop (S start) n' body (body start s)
  end.

(** ** JavaScript numbers, as far as the ALU subtraction uses them *)

Module JS.

(** Integer-valued doubles (exact in the range the ALU reaches) and NaN. *)
Inductive number : Type :=
  | Int (z : Z)
  | NaN.

#[global] Instance number_eq_dec : EqDecision number.
Proof. solve_decision. Defined.

Definition add (x y : number) : number :=
  match x, y with Int a, Int b => Int (a + b) | _, _ => NaN end.

Definition sub (x y : number) : number :=
  match x, y with Int a, Int b => Int (a - b) | _, _ => NaN end.

Definition mul (x y : number) : number :=
  match x, y with Int a, Int b => Int (a * b) | _, _ => NaN end.

(** [x < y] and [x > y]: any comparison with NaN is false. *)
Definition lt (x y : number) : bool :=
  match x, y with Int a, Int b => (a <? b)%Z | _, _ => false end.

Definition gt (x y : number) : bool := lt y x.

(** [x >>> 0] (ToUint32): NaN becomes 0, an integer is taken modulo 2^32. *)
Definition ushr0 (x : number) : Z :=
  match x with Int a => (a mod 2 ^ 32)%Z | NaN => 0%Z end.

(** [Number(v)] for a logic value: [Number(true) = 1], [Number(false) = 0].
    The constants [Unknown] and [HighImpedance] are declared in [utils.ts],
    which is not among the sources; they are values that are neither
    booleans nor numbers (the sources compare them with [===] against
    [true], [false] and the operation names), taken here to be
    non-numeric strings, which [Number] turns into NaN. *)
Definition Number (v : LogicValue) : number :=
  match v with
  | LBool true => Int 1
  | LBool false => Int 0
  | Unknown | HighImpedance => NaN
  end.

Fixpoint pos_toString2 (p : positive) (acc : string) : string :=
  match p with
  | xH => String "1"%char acc
  | xO p' => pos_toString2 p' (String "0"%char acc)
  | xI p' => pos_toString2 p' (String "1"%char acc)
  end.

(** [n.toString(2)] for a non-negative integer. *)
Definition toString2 (n : Z) : string :=
  match n with
  | Zpos p => pos_toString2 p ""
  | _ => "0"
  end.

Fixpoint repeat_char (c : ascii) (n : nat) : string :=
  match n with
  | O => ""
  | S n' => String c (repeat_char c n')
  end.

(** [s.padStart(n, c)]. *)
Definition padStart (s : string) (n : nat) (c : ascii) : string :=
  repeat_char c (n - String.length s) +:+ s.

(** [s[i] === c]; [s[i]] is [undefined] past the end. *)
Definition char_at_is (s : string) (i : nat) (c : ascii) : bool :=
  bool_decide (String.get i s = Some c).

End JS.

(** ** ALU.ts *)

Module ALU.

Definition INPUT_A : list nat := [0; 1; 2; 3].
Definition INPUT_B : list nat := [4; 5; 6; 7].
Definition INPUT_Op0 : nat := 8.
Definition INPUT_Op1 : nat := 9.
Definition INPUT_Cin : nat := 10.

Inductive ALUOp : Type := add | sub | and | or.

(** [ALUOp | Unknown], the type of the [op] getter. *)
Inductive ALUOpOrUnknown : Type :=
  | Op (o : ALUOp)
  | OpUnknown.

(** [[S, V, Z]]: the four result bits, the overflow flag, the zero flag. *)
Definition ALUValue : Type := list LogicValue * LogicValue * LogicValue.

(** [get op()]. *)
Definition op (inputs : Inputs) : ALUOpOrUnknown :=
  let op1 := inputs INPUT_Op1 in
  let op0 := inputs INPUT_Op0 in
  match op1 with
  | LBool false =>
      match op0 with
      | LBool false => Op add
      | LBool true => Op sub
      | Unknown | HighImpedance => OpUnknown
      end
  | LBool true =>
      match op0 with
      | LBool false => Op or
      | LBool true => Op and
      | Unknown | HighImpedance => OpUnknown
      end
  | Unknown | HighImpedance => OpUnknown
  end.

(** [allZeros(vals)]. *)
Fixpoint allZeros (vals : list LogicValue) : LogicValue :=
  match vals with
  | [] => LBool true
  | v :: rest =>
      if isUnknown v || isHighImpedance v then Unknown
      else if v === LBool true then LBool false
      else allZeros rest
  end.

Definition asNumber (v : LogicValue) : nat :=
  if v === LBool true then 1 else 0.

(** [sum3bits(a, b, c)].  The second and third summands of [numUnset]
    test [isHighImpedance(a)], as the source does. *)
Definition sum3bits (a b c : LogicValue) : LogicValue * LogicValue :=
  let numUnset :=
    (if isUnknown a || isHighImpedance a then 1 else 0)
    + (if isUnknown b || isHighImpedance a then 1 else 0)
    + (if isUnknown c || isHighImpedance a then 1 else 0) in
  let sum := asNumber a + asNumber b + asNumber c in
  if numUnset =? 0 then (LBool (sum mod 2 =? 1), LBool (2 <=? sum))
  else if (numUnset =? 1) && (2 <=? sum) then (Unknown, LBool true)
  else (Unknown, Unknown).

(** The body of [case "add"]: the loop over the bit positions, started
    with [prevCin = cin]; the final [prevCin] is the flag [v]. *)
Definition do_add (a b : list LogicValue) (cin : LogicValue)
    (y : list LogicValue) : list LogicValue * LogicValue :=
  for_loop 0 (length a)
    (λ i '(y, prevCin),
       let '(s, cout) := sum3bits prevCin (a !!! i) (b !!! i) in
       (<[i := s]> y, cout))
    (y, cin).

(** [toInt(vs)], with the accumulators [s] and [col] of its loop. *)
Fixpoint toInt_from (vs : list LogicValue) (s col : JS.number) : option JS.number :=
  match vs with
  | [] => Some s
  | v :: vs' =>
      if isUnknown v then None
      else toInt_from vs' (JS.add s (JS.mul (JS.Number v) col)) (JS.mul col (JS.Int 2))
  end.

Definition toInt (vs : list LogicValue) : option JS.number :=
  toInt_from vs (JS.Int 0) (JS.Int 1).

(** The body of [case "sub"]. *)
Definition do_sub (a b : list LogicValue) (y : list LogicValue) (v : LogicValue)
    : list LogicValue * LogicValue :=
  match toInt a, toInt b with
  | Some aInt, Some bInt =>
      let yInt := JS.sub aInt bInt in
      let yInt := if JS.lt yInt (JS.Int 0) then JS.add yInt (JS.Int 16) else yInt in
      let yBinStr := JS.padStart (JS.toString2 (JS.ushr0 yInt)) 4 "0"%char in
      let y := for_loop 0 4
                 (λ i y, <[i := LBool (JS.char_at_is yBinStr (3 - i) "1"%char)]> y) y in
      (y, LBool (JS.gt bInt aInt))
  | _, _ => (y, v)
  end.

(** The body of [case "and"]. *)
Definition do_and (a b : list LogicValue) (y : list LogicValue)
    : list LogicValue * LogicValue :=
  (for_loop 0 (length a)
     (λ i y,
        if (a !!! i === LBool false) || (b !!! i === LBool false)
        then <[i := LBool false]> y
        else if (a !!! i === LBool true) && (b !!! i === LBool true)
        then <[i := LBool true]> y
        else <[i := Unknown]> y)
     y,
   LBool false).

(** The body of [case "or"]. *)
Definition do_or (a b : list LogicValue) (y : list LogicValue)
    : list LogicValue * LogicValue :=
  (for_loop 0 (length a)
     (λ i y,
        if (a !!! i === LBool true) || (b !!! i === LBool true)
        then <[i := LBool true]> y
        else if (a !!! i === LBool false) && (b !!! i === LBool false)
        then <[i := LBool false]> y
        else <[i := Unknown]> y)
     y,
   LBool false).

(** [doRecalcValue()].  [a] and [b] are both built from four input
    nodes, so the reads [a[i]], [b[i]] of the loops are always in range. *)
Definition doRecalcValue (inputs : Inputs) : ALUValue :=
  match op inputs with
  | OpUnknown => ([Unknown; Unknown; Unknown; Unknown], Unknown, Unknown)
  | Op o =>
      let a := inputValues inputs INPUT_A in
      let b := inputValues inputs INPUT_B in
      let cin := inputs INPUT_Cin in
      let y := [Unknown; Unknown; Unknown; Unknown] in
      let v := Unknown in
      let '(y, v) :=
        match o with
        | add => do_add a b cin y
        | sub => do_sub a b y v
        | and => do_and a b y
        | or => do_or a b y
        end in
      let z := allZeros y in
      (y, v, z)
  end.

(** The eleven inputs of an ALU: the bits of A and of B (least
    significant first), [Op0], [Op1], [Cin]. *)
Definition alu_inputs (a b : list LogicValue) (op0 op1 cin : LogicValue) : Inputs :=
  inputs_of_list (take 4 (a ++ replicate 4 (LBool false))
                  ++ take 4 (b ++ replicate 4 (LBool false))
                  ++ [op0; op1; cin]).

(** The rule of section 4.5 for one bit position, in the spec's words:
    [U] counts the indeterminate operands among the three, [S] is the sum
    of the known ones. *)
Definition sum3bits_spec (a b c : LogicValue) : LogicValue * LogicValue :=
  let U := length (filter indeterminate [a; b; c]) in
  let S := asNumber a + asNumber b + asNumber c in
  if bool_decide (U = 0) then (LBool (Nat.odd S), LBool (bool_decide (2 ≤ S)))
  else if bool_decide (U = 1 ∧ 2 ≤ S) then (Unknown, LBool true)
  else (Unknown, Unknown).

(** The ripple of the rule of section 4.5 over the bit positions. *)
Fixpoint ripple_spec (carry : LogicValue) (a b : list LogicValue)
    : list LogicValue * LogicValue :=
  match a, b with
  | ai :: a', bi :: b' =>
      let '(s, cout) := sum3bits_spec carry ai bi in
      let '(y, v) := ripple_spec cout a' b' in
      (s :: y, v)
  | _, _ => ([], carry)
  end.

(** The number a list of known bits stands for, least significant bit
    first. *)
Fixpoint bits_to_Z (bs : list bool) : Z :=
  match bs with
  | [] => 0
  | b :: bs' => Z.b2z b + 2 * bits_to_Z bs'
  end.

(** The zero flag as the specification words it, a rule with one answer
    for every result.  Section 4.5: any Unknown result bit makes Zero
    Unknown, so the flag is Unknown whenever some result bit is Unknown or
    HighImpedance; on results whose bits are all known it is false when some
    result bit is true; it is true exactly when all result bits are
    false. *)
Definition zero_flag_as_stated (y : list LogicValue) (z : LogicValue) : Prop :=
  (z = LBool true ↔ Forall (λ v, v = LBool false) y)
  ∧ (Exists indeterminate y → z = Unknown)
  ∧ (¬ Exists indeterminate y → Exists (λ v, v = LBool true) y → z = LBool false).

(** The flag that this rule gives. *)
Definition zero_flag_rule (y : list LogicValue) : LogicValue :=
  if bool_decide (Exists indeterminate y) then Unknown
  else if bool_decide (Exists (λ v, v = LBool true) y) then LBool false
  else LBool true.

(** A OR 0 with [A = [true; Unknown; false; false]]: the result bits are
    those of A. *)
Definition or_with_true_then_Unknown : Inputs :=
  alu_inputs [LBool true; Unknown] [] (LBool false) (LBool true) (LBool false).

(** The same with the first two bits of A exchanged. *)
Definition or_with_Unknown_then_true : Inputs :=
  alu_inputs [Unknown; LBool true] [] (LBool false) (LBool true) (LBool false).

(** An addition whose operand A has a HighImpedance bit 0, everything
    else being false. *)
Definition add_highZ_in_A : Inputs :=
  alu_inputs [HighImpedance] [] (LBool false) (LBool false) (LBool false).

(** A subtraction whose operand A has a HighImpedance bit 0, everything
    else being false. *)
Definition sub_highZ_in_A : Inputs :=
  alu_inputs [HighImpedance] [] (LBool true) (LBool false) (LBool false).

End ALU.

(** ** The RAM component (16 words of 4 bits) *)

Module RAM.

Definition INPUT_Clock : nat := 0.
Definition INPUT_WriteEnable : nat := 1.
Definition INPUT_Clear : nat := 2.
Definition INPUT_Data : list nat := [3; 4; 5; 6].
Definition INPUT_Address : list nat := [7; 8; 9; 10].

Definition WORD_WIDTH : nat := length INPUT_Data.
Definition NUM_CELLS : nat := 2 ^ length INPUT_Address.

Inductive EdgeTrigger : Type := rising | falling.

#[global] Instance EdgeTrigger_eq_dec : EqDecision EdgeTrigger.
Proof. solve_decision. Defined.

(** [RAMValue<4>]. *)
Record RAMValue : Type := mkRAMValue {
  mem : list (list LogicValue);
  out : list LogicValue;
}.

(** The fields of [RAM16x4Repr] that belong to the RAM itself. *)
Record RAM16x4Repr : Type := mkRepr {
  showContent : option bool;
  trigger : option EdgeTrigger;
  content : option (list string);
}.

(** The state of a [RAM16by4]: its three protected fields and the value
    last committed by the component base class. *)
Record RAM16by4 : Type := mkRAM {
  _showContent : bool;
  _trigger : EdgeTrigger;
  _lastClock : LogicValue;
  value : RAMValue;
}.

Definition RAMDefaults_showContent : bool := true.
Definition RAMDefaults_trigger : EdgeTrigger := rising.

(** Modelled from the spec: [utils.FixedArrayFill(v, n)] is not among the
    sources; an array of [n] copies of [v]. *)
Definition FixedArrayFill {A : Type} (v : A) (n : nat) : list A := replicate n v.

(** [new Array(n)] followed by [for (i < n) arr[i] = f(i)]. *)
Definition array_init {A : Type} (n : nat) (f : nat → A) : list A := f <$> seq 0 n.

(** [valueFilledWith(v)]. *)
Definition valueFilledWith (v : LogicValue) : RAMValue :=
  {| mem := array_init NUM_CELLS (λ _, FixedArrayFill v WORD_WIDTH);
     out := FixedArrayFill v WORD_WIDTH |}.

(** [number | Unknown]. *)
Inductive NumberOrUnknown : Type :=
  | Num (n : nat)
  | NumUnknown.

(** Modelled from the spec: [drawutils.displayValuesFromArray] is not among
    the sources; the RAM uses only the second component of its result, the
    number the bits stand for.  Section 4.1: true is 1, false is 0, and an
    Unknown or HighImpedance bit has no numeric value, so the whole number
    is Unknown.  The first array element is the least significant bit
    unless [mostSignificantFirst]. *)
Fixpoint bits_value (values : list LogicValue) : NumberOrUnknown :=
  match values with
  | [] => Num 0
  | LBool b :: rest =>
      match bits_value rest with
      | Num n => Num (Nat.b2n b + 2 * n)
      | NumUnknown => NumUnknown
      end
  | _ :: _ => NumUnknown
  end.

Definition displayValuesFromArray_value (values : list LogicValue)
    (mostSignificantFirst : bool) : NumberOrUnknown :=
  bits_value (if mostSignificantFirst then reverse values else values).

(** Modelled from the spec: [Flipflop.isClockTrigger] (FlipflopOrLatch.ts)
    is not among the sources.  Section 4.4: rising fires iff
    prevClock=false and currClock=true; falling fires iff prevClock=true
    and currClock=false; an indeterminate clock operand never fires. *)
Definition isClockTrigger (trigger : EdgeTrigger) (prevClock clock : LogicValue) : bool :=
  match trigger with
  | rising => (prevClock === LBool false) && (clock === LBool true)
  | falling => (prevClock === LBool true) && (clock === LBool false)
  end.

(** [currentAddress()]. *)
Definition currentAddress (inputs : Inputs) : NumberOrUnknown :=
  let addrBits := inputValues inputs INPUT_Address in
  displayValuesFromArray_value addrBits false.

Definition set_lastClock (c : LogicValue) (this : RAM16by4) : RAM16by4 :=
  {| _showContent := _showContent this; _trigger := _trigger this;
     _lastClock := c; value := value this |}.

(** [doRecalcValue()]: the value it returns, and the component after the
    call (only [_lastClock] is assigned).  A read [oldState.mem[i]] outside
    the array is [undefined] in JavaScript, which is no [RAMValue] word:
    [None]. *)
Definition doRecalcValue (inputs : Inputs) (this : RAM16by4)
    : option (RAMValue * RAM16by4) :=
  let clear := inputs INPUT_Clear in
  if clear === LBool true then
    Some (valueFilledWith (LBool false), this)
  else
    let addr := currentAddress inputs in
    let prevClock := _lastClock this in
    let clock := inputs INPUT_Clock in
    let this := set_lastClock clock this in
    let oldState := value this in
    let we := inputs INPUT_WriteEnable in
    if negb (we === LBool true) || negb (isClockTrigger (_trigger this) prevClock clock) then
      out ← match addr with
            | NumUnknown => Some [Unknown; Unknown; Unknown; Unknown]
            | Num addr => mem oldState !! addr
            end;
      Some ({| mem := mem oldState; out := out |}, this)
    else
      match addr with
      | NumUnknown => Some (valueFilledWith Unknown, this)
      | Num addr =>
          let newData := inputValues inputs INPUT_Data in
          newState ← mapM (λ i, if bool_decide (i = addr) then Some newData
                                else mem oldState !! i)
                          (seq 0 NUM_CELLS);
          Some ({| mem := newState; out := newData |}, this)
      end.

(** The eleven inputs of a RAM. *)
Definition ram_inputs (clock we clear : LogicValue) (data addr : list LogicValue) : Inputs :=
  inputs_of_list ([clock; we; clear]
                  ++ take 4 (data ++ replicate 4 (LBool false))
                  ++ take 4 (addr ++ replicate 4 (LBool false))).

(** A memory as the component holds it: [NUM_CELLS] words of
    [WORD_WIDTH] bits. *)
Definition wf_mem (m : list (list LogicValue)) : Prop :=
  length m = NUM_CELLS ∧ Forall (λ w, length w = WORD_WIDTH) m.

(** The write condition of [doRecalcValue]: write-enable is true and the
    clock step from the remembered clock to the present one satisfies the
    configured trigger. *)
Definition writes (inputs : Inputs) (this : RAM16by4) : bool :=
  (inputs INPUT_WriteEnable === LBool true)
  && isClockTrigger (_trigger this) (_lastClock this) (inputs INPUT_Clock).

(** The priority order as the specification words it.  In case (2) the
    memory is required to be unchanged whenever the address is Unknown. *)
Definition recalc_as_stated (inputs : Inputs) (this : RAM16by4) : Prop :=
  ∃ v this', doRecalcValue inputs this = Some (v, this') ∧
    if bool_decide (inputs INPUT_Clear = LBool true) then
      v = valueFilledWith (LBool false)
    else
      match currentAddress inputs with
      | NumUnknown =>
          out v = [Unknown; Unknown; Unknown; Unknown] ∧ mem v = mem (value this)
      | Num addr =>
          if writes inputs this then
            mem v = <[addr := inputValues inputs INPUT_Data]> (mem (value this))
            ∧ out v = inputValues inputs INPUT_Data
          else
            mem v = mem (value this) ∧ mem (value this) !! addr = Some (out v)
      end.

(** A cleared RAM that remembers a low clock. *)
Definition ram_clock_low : RAM16by4 :=
  {| _showContent := true; _trigger := rising; _lastClock := LBool false;
     value := valueFilledWith (LBool false) |}.

(** Clock high, write-enable true, clear false, data 1010, address bit 0
    Unknown. *)
Definition write_to_Unknown_address : Inputs :=
  ram_inputs (LBool true) (LBool true) (LBool false)
             [LBool false; LBool true; LBool false; LBool true] [Unknown].

(** Clear asserted while the clock goes high. *)
Definition clear_with_clock_high : Inputs :=
  ram_inputs (LBool true) (LBool true) (LBool true)
             [LBool false; LBool true; LBool false; LBool true] [].

Section Persistence.

(** The character that [join("")] writes for [toLogicValueRepr(v)], and
    [toLogicValueFromChar]: both functions live in [utils.ts], which is
    not among the sources, and are taken as parameters. *)
Variable toLogicValueRepr : LogicValue → ascii.
Variable toLogicValueFromChar : ascii → LogicValue.

(** [word.map(toLogicValueRepr).reverse().join("")]. *)
Definition cell_repr (word : list LogicValue) : string :=
  string_of_list_ascii (reverse (toLogicValueRepr <$> word)).

(** The second loop of [contentRepr]: [addr] runs from [n - 1] down to 0
    and stops at the first cell that is not ["0000"]. *)
Fixpoint trim_cells (n : nat) (cells : list string) : list string :=
  match n with
  | O => cells
  | S addr =>
      if bool_decide (cells !! addr = Some "0000"%string)
      then trim_cells addr (delete addr cells)
      else cells
  end.

(** [contentRepr()]: [None] is the TypeError of [mem[addr].map] on a
    missing cell, [Some None] is the result [undefined]. *)
Definition contentRepr (this : RAM16by4) : option (option (list string)) :=
  cells ← mapM (λ addr, cell_repr <$> (mem (value this) !! addr)) (seq 0 NUM_CELLS);
  let cells := trim_cells NUM_CELLS cells in
  Some (if bool_decide (length cells = 0) then None else Some cells).

(** The inner loop of [savedStateFrom] over [j], from [j] for [n] more
    rounds; [jj] may be negative, where the loop breaks. *)
Fixpoint load_row (savedBits : list ascii) (j n : nat) (row : list LogicValue)
    : list LogicValue :=
  match n with
  | O => row
  | S n' =>
      let len := length savedBits in
      let jj := (Z.of_nat len - Z.of_nat j - 1)%Z in
      if (0 <=? jj)%Z then
        match savedBits !! Z.to_nat jj with
        | Some c => load_row savedBits (S j) n' (<[j := toLogicValueFromChar c]> row)
        | None => row (* not reached: 0 <= jj < len *)
        end
      else row
  end.

(** [savedStateFrom(savedData)]. *)
Definition savedStateFrom (savedData : option RAM16x4Repr) : RAMValue :=
  match savedData ≫= content with
  | None => valueFilledWith (LBool false)
  | Some content =>
      let row_at i :=
        let row := FixedArrayFill (LBool false) WORD_WIDTH in
        match content !! i with
        | Some s => load_row (list_ascii_of_string s) 0 WORD_WIDTH row
        | None => row
        end in
      {| mem := array_init NUM_CELLS row_at; out := row_at 0 |}
  end.

(** The constructor, as far as the RAM's own state goes. *)
Definition new_RAM16by4 (savedData : option RAM16x4Repr) : RAM16by4 :=
  {| _showContent := default RAMDefaults_showContent (savedData ≫= showContent);
     _trigger := default RAMDefaults_trigger (savedData ≫= trigger);
     _lastClock := Unknown;
     value := savedStateFrom savedData |}.

(** [toJSON()], as far as the RAM's own fields go. *)
Definition toJSON (this : RAM16by4) : option RAM16x4Repr :=
  content ← contentRepr this;
  Some {| showContent := if bool_decide (_showContent this ≠ RAMDefaults_showContent)
                         then Some (_showContent this) else None;
          trigger := if bool_decide (_trigger this ≠ RAMDefaults_trigger)
                     then Some (_trigger this) else None;
          content := content |}.

End Persistence.

(** Sample character tables for the two parameters of section
    [Persistence]: ['1'] and ['0'] for the known bits, as in the bit strings
    of the specification; ['?'] and ['Z'] for Unknown and HighImpedance; any
    other character is read as Unknown. *)
Definition toLogicValueRepr_char (v : LogicValue) : ascii :=
  match v with
  | LBool true => "1"
  | LBool false => "0"
  | Unknown => "?"
  | HighImpedance => "Z"
  end%char.

Definition toLogicValueFromChar_char (c : ascii) : LogicValue :=
  if bool_decide (c = "1"%char) then LBool true
  else if bool_decide (c = "0"%char) then LBool false
  else if bool_decide (c = "Z"%char) then HighImpedance
  else Unknown.

(** A saved cell of ASCII characters: every character has a code below
    128.  The strings here are sequences of 8-bit characters, those of
    JavaScript sequences of UTF-16 code units, which is what [split("")]
    cuts a cell into; the two agree, character by character, on the cells
    of ASCII characters, and a cell with other characters has no
    counterpart here. *)
Definition ascii_cell (cell : string) : bool :=
  forallb (λ c, (N_of_ascii c <? 128)%N) (list_ascii_of_string cell).

End RAM.

(** ** Node.ts *)

Module Node.

Section Nodes.

(** The type of the readings of [timeline.adjustedTime()]; they are only
    handed on to the wires. *)
Context {Timestamp : Type}.

(** What a node sees of its editor. *)
Record LogicEditor : Type := mkEditor {
  timeline_adjustedTime : Timestamp;
}.

Definition WireId : Type := nat.

(** The calls a node makes on the objects around it, in order. *)
Inductive Event : Type :=
  | EvAdjustedTime                           (* editor.timeline.adjustedTime() *)
  | EvWirePropagate (wire : WireId) (newValue : LogicValue) (now : Timestamp)
                                             (* wire.propageNewValue(newValue, now) *)
  | EvSetNeedsRecalc                         (* parent.setNeedsRecalc() *)
  | EvSetNeedsRedraw (reason : string).      (* this.setNeedsRedraw(reason) *)

(** The fields of [NodeBase]. *)
Record NodeBase : Type := mkNodeBase {
  id : nat;
  _isAlive : bool;
  _value : LogicValue;
  _forceValue : option LogicValue;
}.

Definition set__value (val : LogicValue) (b : NodeBase) : NodeBase :=
  {| id := id b; _isAlive := _isAlive b; _value := val; _forceValue := _forceValue b |}.

Definition set__forceValue (f : option LogicValue) (b : NodeBase) : NodeBase :=
  {| id := id b; _isAlive := _isAlive b; _value := _value b; _forceValue := f |}.

(** The abstract class [NodeBase]: a subclass holds the base fields
    ([NodeFields]) and implements [propagateNewValue] ([NodeClass]). *)
Class NodeFields (N : Type) : Type := {
  base : N → NodeBase;
  with_base : NodeBase → N → N;
}.

Class NodeClass (N : Type) `{NodeFields N} : Type := {
  propagateNewValue : LogicEditor → LogicValue → N → list Event;
}.

Section Base.
Context {N : Type} `{NodeClass N}.

(** [get value()]. *)
Definition value (n : N) : LogicValue :=
  match _forceValue (base n) with
  | Some f => f
  | None => _value (base n)
  end.

(** [propagateNewValueIfNecessary(oldVisibleValue)]. *)
Definition propagateNewValueIfNecessary (ed : LogicEditor)
    (oldVisibleValue : LogicValue) (n : N) : list Event :=
  let newVisibleValue := value n in
  if negb (newVisibleValue === oldVisibleValue)
  then propagateNewValue ed newVisibleValue n
  else [].

(** [set value(val)]. *)
Definition set_value (ed : LogicEditor) (val : LogicValue) (n : N) : N * list Event :=
  let oldVisibleValue := value n in
  if negb (val === _value (base n)) then
    let n := with_base (set__value val (base n)) n in
    (n, propagateNewValueIfNecessary ed oldVisibleValue n)
  else (n, []).

(** [destroy()], as far as the fields of the node go: [_isAlive] becomes
    false; the node manager, which is told to forget the node, holds none
    of them. *)
Definition destroy (n : N) : N :=
  with_base {| id := id (base n); _isAlive := false;
               _value := _value (base n); _forceValue := _forceValue (base n) |} n.
End Base.

(** [NodeOut]. *)
Record NodeOut : Type := mkNodeOut {
  out_base : NodeBase;
  _outgoingWires : list WireId;
}.

#[global] Instance NodeOut_fields : NodeFields NodeOut := {|
  base := out_base;
  with_base b n := {| out_base := b; _outgoingWires := _outgoingWires n |};
|}.

#[global] Instance NodeOut_class : NodeClass NodeOut := {|
  propagateNewValue ed newValue n :=
    let now := timeline_adjustedTime ed in
    EvAdjustedTime :: ((λ wire, EvWirePropagate wire newValue now) <$> _outgoingWires n);
|}.

(** The calls of one outgoing propagation of an output node: the reading
    of the timeline, then the node's visible value pushed to every
    outgoing wire, in order. *)
Definition outgoing_propagation (ed : LogicEditor) (n : NodeOut) : list Event :=
  EvAdjustedTime
  :: ((λ wire, EvWirePropagate wire (value n) (timeline_adjustedTime ed))
        <$> _outgoingWires n).

(** [NodeOut]: [get forceValue()]. *)
Definition forceValue (n : NodeOut) : option LogicValue := _forceValue (out_base n).

(** [NodeOut]: [set forceValue(newForceValue)]. *)
Definition set_forceValue (ed : LogicEditor) (newForceValue : option LogicValue)
    (n : NodeOut) : NodeOut * list Event :=
  let oldVisibleValue := value n in
  let n := with_base (set__forceValue newForceValue (base n)) n in
  (n, propagateNewValueIfNecessary ed oldVisibleValue n
      ++ [EvSetNeedsRedraw "changed forced output value"]).

(** A wire, as its end node sees it: the wire and its start node. *)
Record Wire : Type := mkWire {
  wire_id : WireId;
  startNode : NodeOut;
}.

(** [NodeIn]. *)
Record NodeIn : Type := mkNodeIn {
  in_base : NodeBase;
  _incomingWire : option Wire;
  _prefersSpike : bool;
}.

#[global] Instance NodeIn_fields : NodeFields NodeIn := {|
  base := in_base;
  with_base b n := {| in_base := b; _incomingWire := _incomingWire n;
                      _prefersSpike := _prefersSpike n |};
|}.

#[global] Instance NodeIn_class : NodeClass NodeIn := {|
  propagateNewValue _ _ _ := [EvSetNeedsRecalc];
|}.

(** [NodeIn]: [set incomingWire(wire)]. *)
Definition set_incomingWire (ed : LogicEditor) (wire : option Wire) (n : NodeIn)
    : NodeIn * list Event :=
  let n := {| in_base := in_base n; _incomingWire := wire;
              _prefersSpike := _prefersSpike n |} in
  match wire with
  | None => set_value ed (LBool false) n
  | Some wire => set_value ed (value (startNode wire)) n
  end.

(** An assignment to the public field [_prefersSpike] of an input node.
    The constructor of the RAM makes it, through [setInputsPreferSpike],
    on its Clock and Clear inputs. *)
Definition set__prefersSpike (prefersSpike : bool) (n : NodeIn) : NodeIn :=
  {| in_base := in_base n; _incomingWire := _incomingWire n;
     _prefersSpike := prefersSpike |}.

(** [InputNodeRepr]: an id and no [force] key. *)
Record InputNodeRepr : Type := mkInputNodeRepr { spec_id : nat }.

(** The fields of a [NodeIn] after its constructor: the initialisers of
    the class fields; [nodeSpec] has no [force] key, so [_forceValue]
    stays undefined. *)
Definition new_NodeIn (nodeSpec : InputNodeRepr) : NodeIn :=
  {| in_base := {| id := spec_id nodeSpec; _isAlive := true;
                   _value := LBool false; _forceValue := None |};
     _incomingWire := None;
     _prefersSpike := false |}.

(** The life of an input node: built by its constructor, then, in any
    order and any number of times, wires are attached and detached through
    the setter, the attached wire delivers values by assigning [value], the
    owning component assigns the public field [_prefersSpike], and the node
    is destroyed.  These are all the assignments to the fields of a
    [NodeIn] that the class allows: [_value], [_forceValue], [_isAlive]
    and [_incomingWire] are private or protected, and no method of the
    class assigns [_forceValue].
    Modelled from the spec: [Wire.ts] is not among the sources; by
    sections 4.3 and 5 only the attached, live wire updates its end
    node, a detached or destroyed wire delivers nothing. *)
Inductive reachable (ed : LogicEditor) : NodeIn → Prop :=
  | reachable_new nodeSpec :
      reachable ed (new_NodeIn nodeSpec)
  | reachable_set_incomingWire n wire :
      reachable ed n → reachable ed (set_incomingWire ed wire n).1
  | reachable_delivery n v :
      reachable ed n → is_Some (_incomingWire n) →
      reachable ed (set_value ed v n).1
  | reachable_set__prefersSpike n prefersSpike :
      reachable ed n → reachable ed (set__prefersSpike prefersSpike n)
  | reachable_destroy n :
      reachable ed n → reachable ed (destroy n).

End Nodes.

Arguments LogicEditor : clear implicits.
Arguments Event : clear implicits.

End Node.

(** ** Component.ts: the representation of the node ids *)

Module Component.

(** The JSON values the node representation is made of. *)
#[warnings="-register-all"]
Inductive json : Type :=
  | JNull
  | JBool (b : bool)
  | JNumber (n : nat)
  | JString (s : string)
  | JArray (items : list json)
  | JObject (fields : list (string * json)).

Fixpoint assoc (key : string) (fields : list (string * json)) : option json :=
  match fields with
  | [] => None
  | (k, v) :: rest => if String.eqb k key then Some v else assoc key rest
  end.

(** [obj.key] on a JSON value other than [null]; [None] is
    [undefined]. *)
Definition field (key : string) (j : json) : option json :=
  match j with
  | JObject fields => assoc key fields
  | _ => None
  end.

(** [obj.key] on any JSON value: reading a property of [null] throws a
    TypeError, the outer [None]; a boolean, a number, a string or an array
    has no such property and gives [undefined]. *)
Definition read_field (key : string) (j : json) : option (option json) :=
  match j with
  | JNull => None
  | _ => Some (field key j)
  end.

(** The names of the fields of an object. *)
Definition keys (j : json) : list string :=
  match j with
  | JObject fields => fst <$> fields
  | _ => []
  end.

Definition NodeID : Type := nat.

Section NodesRepr.

(** [TriState] and [toTriStateRepr] live in [utils.ts], which is not
    among the sources; they are taken as parameters. *)
Variable TriState : Type.
Variable toTriStateRepr : TriState → json.

(** What [buildNodesRepr] reads of a [Node]. *)
Record Node : Type := mkNode {
  id : NodeID;
  forceValue : option TriState;
}.

(** [inNodeReprs(nodes)]. *)
Definition inNodeReprs (nodes : list Node) : json :=
  let reprOne (node : Node) := JNumber (id node) in
  match nodes with
  | [node] => reprOne node
  | _ => JArray (reprOne <$> nodes)
  end.

(** [reprOne] of [outNodeReprs]. *)
Definition outReprOne (node : Node) : json :=
  match forceValue node with
  | None => JNumber (id node)
  | Some f => JObject [("id"%string, JNumber (id node)); ("force"%string, toTriStateRepr f)]
  end.

(** [outNodeReprs(nodes)]. *)
Definition outNodeReprs (nodes : list Node) : json :=
  match nodes with
  | [node] => outReprOne node
  | _ => JArray (outReprOne <$> nodes)
  end.

(** [buildNodesRepr()], from [this.inputs] and [this.outputs]. *)
Definition buildNodesRepr (inputs outputs : list Node) : json :=
  let numInputs := length inputs in
  let numOutputs := length outputs in
  if negb (numInputs =? 0) then
    let inRepr := inNodeReprs inputs in
    if negb (numOutputs =? 0) then
      let outRepr := outNodeReprs outputs in
      JObject [("in"%string, inRepr); ("out"%string, outRepr)]
    else
      JObject [("id"%string, inRepr)]
  else if negb (numOutputs =? 0) then
    let outRepr := outNodeReprs outputs in
    JObject [("id"%string, outRepr)]
  else JObject [].

Definition isNumber (j : json) : bool :=
  match j with JNumber _ => true | _ => false end.

(** [InputNodeRepr] and [OutputNodeRepr] as [nodeSpecsFromRepr] builds
    them: an [id] read from the representation ([None] is [undefined]) and,
    for an output given as an object, a [force] key holding what the
    object's [force] is. *)
Record InputNodeRepr : Type := mkInputSpec { in_spec_id : option json }.
Record OutputNodeRepr : Type := mkOutputSpec {
  out_spec_id : option json;
  out_spec_force : option (option json);   (* [None]: no [force] key *)
}.

(** [pushOne] of [genInSpecs]: the spec pushed, or [None] for the
    TypeError of reading [inRepr.id] when [inRepr] is [null]. *)
Definition inSpecOne (inRepr : json) : option InputNodeRepr :=
  if isNumber inRepr then Some {| in_spec_id := Some inRepr |}
  else
    id ← read_field "id" inRepr;
    Some {| in_spec_id := id |}.

(** [pushOne] of [genOutSpecs]: the spec pushed, or [None] for the
    TypeError of reading [outRepr.id] when [outRepr] is [null]. *)
Definition outSpecOne (outRepr : json) : option OutputNodeRepr :=
  if isNumber outRepr
  then Some {| out_spec_id := Some outRepr; out_spec_force := None |}
  else
    id ← read_field "id" outRepr;
    force ← read_field "force" outRepr;
    Some {| out_spec_id := id; out_spec_force := Some force |}.

(** The common shape of [genInSpecs] and [genOutSpecs]: the specs pushed
    for an array of representations or for a single one.  An [undefined]
    argument ends in the TypeError of reading its [id], [None]; so does a
    [null] argument or entry. *)
Definition genSpecs {Spec : Type} (one : json → option Spec) (reprs : option json)
    : option (list Spec) :=
  match reprs with
  | Some (JArray items) => mapM one items
  | Some r => spec ← one r; Some [spec]
  | None => None
  end.

(** [genInSpecs(inReprs)]. *)
Definition genInSpecs (inReprs : option json) : option (list InputNodeRepr) :=
  genSpecs inSpecOne inReprs.

(** [genOutSpecs(outReprs)]. *)
Definition genOutSpecs (outReprs : option json) : option (list OutputNodeRepr) :=
  genSpecs outSpecOne outReprs.

(** The branch of [nodeSpecsFromRepr] for a saved representation
    ([_repr !== null], so [_repr] is not [JNull] here): the input specs, the
    output specs, and the ids handed to [NodeManager.markIDUsed], in order;
    [None] for a TypeError while the specs are read.  [NodeManager] is not
    among the sources: what [markIDUsed] does with the ids is left out. *)
Definition nodeSpecsFromRepr (_repr : json) (numInputs numOutputs : nat)
    : option (list InputNodeRepr * list OutputNodeRepr * list (option json)) :=
  '(inputSpecs, outputSpecs) ←
    (if negb (numInputs =? 0) then
       if negb (numOutputs =? 0) then
         inputSpecs ← genInSpecs (field "in" _repr);
         outputSpecs ← genOutSpecs (field "out" _repr);
         Some (inputSpecs, outputSpecs)
       else
         inputSpecs ← genInSpecs (field "id" _repr);
         Some (inputSpecs, [])
     else if negb (numOutputs =? 0) then
       outputSpecs ← genOutSpecs (field "id" _repr);
       Some ([], outputSpecs)
     else Some ([], []));
  Some (inputSpecs, outputSpecs,
        (in_spec_id <$> inputSpecs) ++ (out_spec_id <$> outputSpecs)).

(** What [genInSpecs] and [genOutSpecs] can read without a TypeError: a
    value that is there and is not [null], or an array without [null]
    entries. *)
Definition readable (reprs : option json) : Prop :=
  match reprs with
  | None => False
  | Some (JArray items) => JNull ∉ items
  | Some r => r ≠ JNull
  end.

(** The number of node entries of a field: those of an array, one for any
    other value, none for a missing field. *)
Definition entries (reprs : option json) : nat :=
  match reprs with
  | None => 0
  | Some (JArray items) => length items
  | Some _ => 1
  end.

(** The words of the specification: a single-element array collapses to
    the bare element. *)
Definition collapse (items : list json) : json :=
  match items with
  | [item] => item
  | _ => JArray items
  end.

(** What the constructor finds for a node when the representation is read
    back. *)
Definition inSpec_of (node : Node) : InputNodeRepr :=
  {| in_spec_id := Some (JNumber (id node)) |}.

Definition outSpec_of (node : Node) : OutputNodeRepr :=
  {| out_spec_id := Some (JNumber (id node));
     out_spec_force := (λ f, Some (toTriStateRepr f)) <$> forceValue node |}.

End NodesRepr.

Arguments mkNode {TriState}.
Arguments id {TriState}.
Arguments forceValue {TriState}.
Arguments inNodeReprs {TriState}.
Arguments outReprOne {TriState}.
Arguments outNodeReprs {TriState}.
Arguments buildNodesRepr {TriState}.
Arguments inSpec_of {TriState}.
Arguments outSpec_of {TriState}.

End Component.

(** ** ALU: what the result bits mean *)

Module ALUMeaning.

(** A boolean [b] is a possible reading of the signal [v]: a known signal
    reads as itself, an Unknown or HighImpedance one as either boolean. *)
Definition refines (v : LogicValue) (b : bool) : Prop :=
  match v with
  | LBool x => x = b
  | Unknown | HighImpedance => True
  end.

#[global] Instance refines_dec v b : Decision (refines v b).
Proof. destruct v; simpl; apply _. Defined.

(** One position of a binary addition: the sum bit and the carry. *)
Definition full_adder (c x y : bool) : bool * bool :=
  (xorb (xorb c x) y, (c && x) || (c && y) || (x && y)).

(** Binary addition of two bit lists, least significant bit first: the
    sum bits and the final carry. *)
Fixpoint ripple_bool (c : bool) (a b : list bool) : list bool * bool :=
  match a, b with
  | x :: a', y :: b' =>
      let '(s, cout) := full_adder c x y in
      let '(ss, v) := ripple_bool cout a' b' in
      (s :: ss, v)
  | _, _ => ([], c)
  end.

(** The inputs of an ALU with the operands A and B exchanged. *)
Definition swap_operands (inputs : Inputs) : Inputs :=
  λ i, if bool_decide (i < 4) then inputs (i + 4)
       else if bool_decide (i < 8) then inputs (i - 4)
       else inputs i.

End ALUMeaning.

(** ** RAM: one recalculation after another *)

Module RAMSteps.
Import RAM.

(** Modelled from the spec: the component base class that calls
    [doRecalcValue] and stores its result is not among the sources; by
    section 4.4 the recalculated value becomes the component's value
    before the next recalculation reads [this.value]. *)
Definition commit (v : RAMValue) (this : RAM16by4) : RAM16by4 :=
  {| _showContent := _showContent this; _trigger := _trigger this;
     _lastClock := _lastClock this; value := v |}.

(** One recalculation followed by the commit of its result. *)
Definition recalc_and_commit (inputs : Inputs) (this : RAM16by4) : option RAM16by4 :=
  '(v, this') ← doRecalcValue inputs this;
  Some (commit v this').

End RAMSteps.

(** ** Node.ts: wires, forcing by double click, orientation *)

Module NodeMore.
Import Node.

(** [Orientation] (Drawable.ts): the keys e, s, w, n of [Orientations]. *)
Inductive Orientation : Type := orient_e | orient_s | orient_w | orient_n.

#[global] Instance Orientation_eq_dec : EqDecision Orientation.
Proof. solve_decision. Defined.

(** [get wireProlongDirection()], from [this.parent.orient] and
    [this.orient]; the inner switches cover every orientation, so the
    [break]s after them are never reached. *)
Definition wireProlongDirection (parent_orient orient : Orientation) : Orientation :=
  match parent_orient with
  | orient_e =>
      match orient with
      | orient_e => orient_w | orient_w => orient_e
      | orient_s => orient_n | orient_n => orient_s
      end
  | orient_w => orient
  | orient_s =>
      match orient with
      | orient_e => orient_n | orient_w => orient_s
      | orient_s => orient_e | orient_n => orient_w
      end
  | orient_n =>
      match orient with
      | orient_e => orient_s | orient_w => orient_n
      | orient_s => orient_w | orient_n => orient_e
      end
  end.

(** The pair [[appliedGridOffsetX, appliedGridOffsetY]] of
    [updatePositionFromParent()], from [this.parent.orient] and the two
    grid offsets of the node (whole numbers of grid steps). *)
Definition appliedGridOffset (parent_orient : Orientation) (gridOffsetX gridOffsetY : Z)
    : Z * Z :=
  match parent_orient with
  | orient_e => (gridOffsetX, gridOffsetY)
  | orient_w => (- gridOffsetX, - gridOffsetY)
  | orient_s => (- gridOffsetY, gridOffsetX)
  | orient_n => (gridOffsetY, - gridOffsetX)
  end%Z.

(** The grid step towards a side of the canvas, whose y axis points down:
    east is +x, south is +y. *)
Definition towards (o : Orientation) : Z * Z :=
  match o with
  | orient_e => (1, 0)
  | orient_s => (0, 1)
  | orient_w => (-1, 0)
  | orient_n => (0, -1)
  end%Z.

(** [wires.indexOf(wire)]: the first position of [wire], [None] for -1. *)
Fixpoint indexOf (wire : WireId) (wires : list WireId) : option nat :=
  match wires with
  | [] => None
  | w0 :: rest => if bool_decide (w0 = wire) then Some 0 else S <$> indexOf wire rest
  end.

(** [addOutgoingWire(wire)]. *)
Definition addOutgoingWire (wire : WireId) (node : NodeOut) : NodeOut :=
  {| out_base := out_base node; _outgoingWires := _outgoingWires node ++ [wire] |}.

(** [removeOutgoingWire(wire)]. *)
Definition removeOutgoingWire (wire : WireId) (node : NodeOut) : NodeOut :=
  match indexOf wire (_outgoingWires node) with
  | Some i => {| out_base := out_base node; _outgoingWires := delete i (_outgoingWires node) |}
  | None => node
  end.

(** [NodeOut]: [get isDisconnected()]. *)
Definition isDisconnected (node : NodeOut) : bool :=
  bool_decide (length (_outgoingWires node) = 0).

(** The two flags that [doDraw] hands to [drawWaypoint], given whether
    [mode >= Mode.FULL]: [showForced] and [showForcedWarning]. *)
Definition showForced {T : Type} `{NodeFields T} (mode_ge_FULL : bool) (node : T) : bool :=
  bool_decide (is_Some (_forceValue (base node))) && mode_ge_FULL.

Definition showForcedWarning {T : Type} `{NodeFields T} (mode_ge_FULL : bool) (node : T)
    : bool :=
  mode_ge_FULL && negb (isUnknown (_value (base node))) && negb (isUnknown (value node))
  && negb (_value (base node) === value node).

(** What [mouseDoubleClicked] reads besides the node: the answer of
    [super.mouseDoubleClicked(e)], whether [editor.mode >= Mode.FULL],
    [e.altKey] and [parent.allowsForcedOutputs]. *)
Record DoubleClick : Type := mkDoubleClick {
  superHandled : bool;
  mode_ge_FULL : bool;
  altKey : bool;
  allowsForcedOutputs : bool;
}.

(** The forced value that follows [_forceValue] in the double-click
    cycle. *)
Definition nextForceValue (f : option LogicValue) : option LogicValue :=
  match f with
  | None => Some Unknown
  | Some Unknown => Some HighImpedance
  | Some HighImpedance => Some (LBool false)
  | Some (LBool false) => Some (LBool true)
  | Some (LBool true) => None
  end.

Section DoubleClicks.
Context {Timestamp : Type}.

(** [NodeOut]: [mouseDoubleClicked(e)]; [this.isOutput] is true of a
    [NodeOut].  The node after the call, the calls made, and the answer. *)
Definition mouseDoubleClicked (ed : LogicEditor Timestamp) (click : DoubleClick)
    (node : NodeOut) : NodeOut * list (Event Timestamp) * bool :=
  if superHandled click then (node, [], true)
  else if mode_ge_FULL click && altKey click && true && allowsForcedOutputs click then
    (set_forceValue ed (nextForceValue (_forceValue (out_base node))) node, true)
  else (node, [], false).

End DoubleClicks.

End NodeMore.

(** ** ALU and RAM: [propagateValue] *)

Module Propagate.
Import Node.

Definition ALU_OUTPUT_S : list nat := [0; 1; 2; 3].
Definition ALU_OUTPUT_V : nat := 4.
Definition ALU_OUTPUT_Z : nat := 5.
Definition RAM_OUTPUT_Q : list nat := [0; 1; 2; 3].

Section WithEditor.
Context {Timestamp : Type}.

(** The output nodes of a component and the calls made so far. *)
Definition Outputs : Type := list NodeOut * list (Event Timestamp).

(** [this.outputs[i].value = v]: the setter of node [i]; on a missing node
    the assignment is a TypeError, [None]. *)
Definition assign_output (ed : LogicEditor Timestamp) (i : nat) (v : LogicValue)
    (st : Outputs) : option Outputs :=
  node ← st.1 !! i;
  let '(node', evs) := set_value ed v node in
  Some (<[i := node']> st.1, st.2 ++ evs).

(** [for (let i = 0; i < inds.length; i++) this.outputs[inds[i]].value = vals[i]],
    from [i] on; a missing [vals[i]] is no logic value, [None]. *)
Fixpoint assign_outputs (ed : LogicEditor Timestamp) (inds : list nat)
    (vals : list LogicValue) (i : nat) (st : Outputs) : option Outputs :=
  match inds with
  | [] => Some st
  | ind :: inds' =>
      v ← vals !! i;
      st' ← assign_output ed ind v st;
      assign_outputs ed inds' vals (S i) st'
  end.

(** [ALU.propagateValue(newValue)]. *)
Definition ALU_propagateValue (ed : LogicEditor Timestamp) (newValue : ALU.ALUValue)
    (outputs : list NodeOut) : option Outputs :=
  st ← assign_outputs ed ALU_OUTPUT_S newValue.1.1 0 (outputs, []);
  st ← assign_output ed ALU_OUTPUT_V newValue.1.2 st;
  assign_output ed ALU_OUTPUT_Z newValue.2 st.

(** [RAM16by4.propagateValue(newValue)]. *)
Definition RAM_propagateValue (ed : LogicEditor Timestamp) (newValue : RAM.RAMValue)
    (outputs : list NodeOut) : option Outputs :=
  assign_outputs ed RAM_OUTPUT_Q (RAM.out newValue) 0 (outputs, []).

End WithEditor.

End Propagate.

(** ** Component.ts: the life of a component *)

Module ComponentLife.

(** [ComponentState]. *)
Inductive ComponentState : Type := SPAWNING | SPAWNED | DEAD.

#[global] Instance ComponentState_eq_dec : EqDecision ComponentState.
Proof. solve_decision. Defined.

(** What the mouse handlers read of the globals: the mouse position,
    whether [mode >= Mode.CONNECT], whether
    [currMouseAction === MouseAction.MOVE], the answer of [isMouseOver()]
    and [modifierKeys.isCommandDown]. *)
Record Globals : Type := mkGlobals {
  mouseX : Z;
  mouseY : Z;
  mode_ge_CONNECT : bool;
  action_is_MOVE : bool;
  isMouseOver : bool;
  isCommandDown : bool;
}.

(** The calls on the functions imported from the simulator and the menu
    tools, and on the nodes. *)
Inductive Call : Type :=
  | startedMoving
  | stoppedMoving
  | backToEdit
  | node_destroy (node : nat).

(** The fields of a [ComponentBase] that the handlers use, with the ids
    of its nodes, inputs first. *)
Record Component : Type := mkComponent {
  _state : ComponentState;
  _isMovingWithMouseOffset : option (Z * Z);
  pos : Z * Z;
  allNodes : list nat;
}.

Section Handlers.

(** [setPosition(x, y, snapToGrid)] belongs to [PositionSupport]
    (Position.ts), which is not among the sources: the position it sets is
    a parameter. *)
Variable setPosition : Z → Z → bool → Z * Z → Z * Z.

(** [get state()]. *)
Definition state (c : Component) : ComponentState := _state c.

(** [get isMoving()]. *)
Definition isMoving (c : Component) : bool :=
  bool_decide (is_Some (_isMovingWithMouseOffset c)).

(** The constructor, as far as these fields go: a restored component is
    spawned, a new one is spawning and reported as moving. *)
Definition new_Component (restored : bool) (initial_pos : Z * Z) (nodes : list nat)
    : Component * list Call :=
  if restored
  then ({| _state := SPAWNED; _isMovingWithMouseOffset := None;
           pos := initial_pos; allNodes := nodes |}, [])
  else ({| _state := SPAWNING; _isMovingWithMouseOffset := None;
           pos := initial_pos; allNodes := nodes |}, [startedMoving]).

(** [mousePressed()]. *)
Definition mousePressed (g : Globals) (c : Component) : Component * list Call :=
  if bool_decide (_state c = SPAWNING) then
    let snapToGrid := negb (isCommandDown g) in
    ({| _state := SPAWNED;
        _isMovingWithMouseOffset := _isMovingWithMouseOffset c;
        pos := setPosition (mouseX g) (mouseY g) snapToGrid (pos c);
        allNodes := allNodes c |},
     [stoppedMoving; backToEdit])
  else if mode_ge_CONNECT g && (action_is_MOVE g || isMouseOver g) then
    match _isMovingWithMouseOffset c with
    | None =>
        ({| _state := _state c;
            _isMovingWithMouseOffset := Some ((pos c).1 - mouseX g, (pos c).2 - mouseY g)%Z;
            pos := pos c; allNodes := allNodes c |}, [])
    | Some _ => (c, [])
    end
  else (c, []).

(** [mouseReleased()]. *)
Definition mouseReleased (c : Component) : Component * list Call :=
  match _isMovingWithMouseOffset c with
  | Some _ =>
      ({| _state := _state c; _isMovingWithMouseOffset := None;
          pos := pos c; allNodes := allNodes c |}, [stoppedMoving])
  | None => (c, [])
  end.

(** [destroy()]. *)
Definition destroy (c : Component) : Component * list Call :=
  ({| _state := DEAD; _isMovingWithMouseOffset := _isMovingWithMouseOffset c;
      pos := pos c; allNodes := allNodes c |},
   node_destroy <$> allNodes c).

(** The order in which a component goes through its states. *)
Definition stage (st : ComponentState) : nat :=
  match st with SPAWNING => 0 | SPAWNED => 1 | DEAD => 2 end.

(** The handlers, as events arriving at a component one after another. *)
Inductive Op : Type :=
  | OpMousePressed (g : Globals)
  | OpMouseReleased
  | OpDestroy.

Definition apply_op (o : Op) (c : Component) : Component * list Call :=
  match o with
  | OpMousePressed g => mousePressed g c
  | OpMouseReleased => mouseReleased c
  | OpDestroy => destroy c
  end.

Fixpoint run (ops : list Op) (c : Component) : Component * list Call :=
  match ops with
  | [] => (c, [])
  | o :: ops' =>
      let '(c1, calls1) := apply_op o c in
      let '(c2, calls2) := run ops' c1 in
      (c2, calls1 ++ calls2)
  end.

End Handlers.

End ComponentLife.

(** ** Gate.ts *)

Module Gate.

(** [GateType] (Enums.ts, not among the sources): the seven members that
    Gate.ts names. *)
Inductive GateType : Type := NOT | AND | NAND | OR | NOR | XOR | XNOR.

#[global] Instance GateType_eq_dec : EqDecision GateType.
Proof. solve_decision. Defined.

(** [c.toUpperCase()] for one character: the letters a to z are moved to
    A to Z.  (Of the characters outside ASCII none is turned by JavaScript
    into a letter of the seven gate names alone.) *)
Definition ascii_toUpperCase (c : ascii) : ascii :=
  let k := nat_of_ascii c in
  if (97 <=? k) && (k <=? 122) then ascii_of_nat (k - 32) else c.

(** [str.toUpperCase()]. *)
Fixpoint toUpperCase (str : string) : string :=
  match str with
  | EmptyString => EmptyString
  | String c rest => String (ascii_toUpperCase c) (toUpperCase rest)
  end.

(** [convertToType(str)]. *)
Definition convertToType (str : string) : GateType :=
  let u := toUpperCase str in
  if String.eqb u "NOT" then NOT
  else if String.eqb u "AND" then AND
  else if String.eqb u "NAND" then NAND
  else if String.eqb u "OR" then OR
  else if String.eqb u "NOR" then NOR
  else if String.eqb u "XOR" then XOR
  else if String.eqb u "XNOR" then XNOR
  else AND.

(** What the gate uses of a node: its id and its boolean value. *)
Record GNode : Type := mkGNode {
  id : nat;
  value : bool;
}.

(** The fields of a [Gate]. *)
Record Gate : Type := mkGate {
  strType : string;
  type : GateType;
  posX : Z;
  posY : Z;
  isSpawned : bool;
  isSaved : bool;
  isMoving : bool;
  input : list GNode;
  output : option GNode;
  nodeStartID : nat;
}.

(** [calculateValue()]; reading the value of a missing input is a
    TypeError, [None].  [&&] and [||] read their right operand only when
    the left one does not decide. *)
Definition calculateValue (g : Gate) : option bool :=
  let input_value i := value <$> input g !! i in
  let and_inputs :=
    x ← input_value 0; if x : bool then input_value 1 else Some false in
  let or_inputs :=
    x ← input_value 0; if x : bool then Some true else input_value 1 in
  match type g with
  | NOT => negb <$> input_value 0
  | AND => and_inputs
  | NAND => negb <$> and_inputs
  | OR => or_inputs
  | NOR => negb <$> or_inputs
  | XOR => x ← input_value 0; y ← input_value 1; Some (negb (eqb x y))
  | XNOR => x ← input_value 0; y ← input_value 1; Some (eqb x y)
  end.

(** [generateOutput()]. *)
Definition generateOutput (g : Gate) : option Gate :=
  match output g with
  | Some out =>
      v ← calculateValue g;
      Some {| strType := strType g; type := type g; posX := posX g; posY := posY g;
              isSpawned := isSpawned g; isSaved := isSaved g; isMoving := isMoving g;
              input := input g; output := Some {| id := id out; value := v |};
              nodeStartID := nodeStartID g |}
  | None => Some g
  end.

(** [refreshNodes()]; [this.input[0]] exists in every constructed gate,
    its absence is a TypeError, [None]. *)
Definition refreshNodes (g : Gate) : option Gate :=
  let currentID := nodeStartID g in
  in0 ← input g !! 0;
  let input1 := <[0 := {| id := currentID; value := value in0 |}]> (input g) in
  let currentID := S currentID in
  '(input2, currentID) ←
    (if bool_decide (type g ≠ NOT) then
       in1 ← input1 !! 1;
       Some (<[1 := {| id := currentID; value := value in1 |}]> input1, S currentID)
     else Some (input1, currentID));
  let output' :=
    match output g with
    | Some out => Some {| id := currentID; value := value out |}
    | None => None
    end in
  Some {| strType := strType g; type := type g; posX := posX g; posY := posY g;
          isSpawned := isSpawned g; isSaved := isSaved g; isMoving := isMoving g;
          input := input2; output := output'; nodeStartID := nodeStartID g |}.

(** What [toJSON()] returns. *)
Record GateRepr : Type := mkGateRepr {
  repr_type : string;
  repr_id : nat;
  repr_pos : Z * Z;
}.

(** [toJSON()]. *)
Definition toJSON (g : Gate) : GateRepr :=
  {| repr_type := strType g; repr_id := nodeStartID g; repr_pos := (posX g, posY g) |}.

Section Construction.

(** [Node] and the base class [Component] of this file are not among the
    sources: the id and the value that [new Node(..)] gives the [k]-th node
    of a gate, and the position the base constructor sets, are
    parameters. *)
Variable new_node : nat → GNode.
Variable initial_pos : Z * Z.

(** The constructor [new Gate(strType)]. *)
Definition new_Gate (strType : string) : Gate :=
  let type := convertToType strType in
  let input := if bool_decide (type ≠ NOT) then [new_node 0; new_node 1] else [new_node 0] in
  let output := new_node (length input) in
  {| strType := strType; type := type;
     posX := initial_pos.1; posY := initial_pos.2;
     isSpawned := false; isSaved := false; isMoving := false;
     input := input; output := Some output;
     nodeStartID := id (new_node 0) |}.

(** [Gate.from(strType, pos, nodeStartID)]. *)
Definition from (strType : string) (pos : Z * Z) (nodeStartID : nat) : option Gate :=
  let newObj := new_Gate strType in
  refreshNodes
    {| strType := Gate.strType newObj; type := type newObj;
       posX := pos.1; posY := pos.2;
       isSpawned := true; isSaved := true; isMoving := isMoving newObj;
       input := input newObj; output := output newObj;
       nodeStartID := nodeStartID |}.

End Construction.

End Gate.

(** ** Outputs.ts and ComponentFactory.ts *)

Module Factories.

(** The output classes that [OutputFactory.make] constructs. *)
Inductive OutputClass : Type :=
  | OutputBit | OutputNibble | Output7Seg | Output16Seg
  | OutputAscii | OutputBar | OutputShiftBuffer.

#[global] Instance OutputClass_eq_dec : EqDecision OutputClass.
Proof. solve_decision. Defined.

Section Outputs.

(** What a saved output holds besides its [type]. *)
Variable Payload : Type.

(** [OutputRepr]: an optional [type] key and the rest. *)
Record OutputRepr : Type := mkOutputRepr {
  repr_type : option string;
  repr_rest : Payload;
}.

(** [OutputRepr | string | undefined]. *)
Inductive SavedDataOrType : Type :=
  | Undefined
  | TypeString (type : string)
  | SavedData (savedData : OutputRepr).

(** A constructed output: [new C(editor, savedData)], with [None] for
    [null]. *)
Definition Output : Type := OutputClass * option OutputRepr.

(** [OutputFactory.make(editor, savedDataOrType)]; [None] is [undefined],
    the result of a [switch] that matches no case. *)
Definition OutputFactory_make (savedDataOrType : SavedDataOrType) : option Output :=
  let '(blank, type, savedData) :=
    match savedDataOrType with
    | Undefined => (true, None, None)
    | TypeString type => (true, Some type, None)
    | SavedData savedData => (false, repr_type savedData, Some savedData)
    end in
  let arg := if blank : bool then None else savedData in
  match type with
  | None => Some (OutputBit, arg)
  | Some type =>
      if String.eqb type "nibble" then Some (OutputNibble, arg)
      else if String.eqb type "7seg" then Some (Output7Seg, arg)
      else if String.eqb type "16seg" then Some (Output16Seg, arg)
      else if String.eqb type "ascii" then Some (OutputAscii, arg)
      else if String.eqb type "bar" then Some (OutputBar, arg)
      else if String.eqb type "shiftbuffer" then Some (OutputShiftBuffer, arg)
      else None
  end.

(** The type name that [OutputFactory.make] goes by, if any. *)
Definition given_type (savedDataOrType : SavedDataOrType) : option string :=
  match savedDataOrType with
  | Undefined => None
  | TypeString type => Some type
  | SavedData savedData => repr_type savedData
  end.

End Outputs.

Arguments Undefined {Payload}.
Arguments TypeString {Payload}.
Arguments SavedData {Payload}.
Arguments given_type {Payload}.

(** The type names that [OutputFactory.make] knows. *)
Definition output_types : list string :=
  ["nibble"; "7seg"; "16seg"; "ascii"; "bar"; "shiftbuffer"]%string.

Section Buttons.

(** The components, and the three factories that are not among the
    sources ([InputFactory], [GateFactory], [ICFactory]) together with
    [OutputFactory] seen as one of them: each makes a component, or
    [undefined], from an optional type name. *)
Variable Component : Type.
Variable InputFactory OutputFactory GateFactory ICFactory : option string → option Component.

(** What [makeFactoryForButton] reads of the button: [dataset["component"]],
    [dataset["type"]] and [outerHTML]. *)
Record Button : Type := mkButton {
  dataset_component : option string;
  dataset_type : option string;
  outerHTML : string;
}.

(** A result, or the [Error] thrown with its message. *)
Inductive Thrown (A : Type) : Type :=
  | Returned (a : A)
  | Error (message : string).
Arguments Returned {A}.
Arguments Error {A}.

(** [makeFactory(compType, factory).make(editor, elem)]. *)
Definition makeFactory_make (compType : string) (factory : option string → option Component)
    (elem : Button) : Thrown Component :=
  let type := dataset_type elem in
  match factory type with
  | None => Error ("undefined '" +:+ compType +:+ "' type - elem: " +:+ outerHTML elem)
  | Some newComp => Returned newComp
  end.

(** [ComponentFactoryTypes.propsOf(compType).make], defined for the four
    values of the enumeration. *)
Definition ComponentFactoryTypes (compType : string)
    : option (Button → Thrown Component) :=
  if String.eqb compType "in" then Some (makeFactory_make "in" InputFactory)
  else if String.eqb compType "out" then Some (makeFactory_make "out" OutputFactory)
  else if String.eqb compType "gate" then Some (makeFactory_make "gate" GateFactory)
  else if String.eqb compType "component" then Some (makeFactory_make "component" ICFactory)
  else None.

(** [`${compType}`] for a string or [undefined]. *)
Definition show_optional (compType : option string) : string :=
  default "undefined"%string compType.

(** [makeFactoryForButton(elem)]: the error of a bad category, or the
    function it returns, which takes [editor.components] and gives the new
    component and the list after the push, or the error thrown while making
    the component. *)
Definition makeFactoryForButton (elem : Button)
    : Thrown (list Component → Thrown (Component * list Component)) :=
  match dataset_component elem ≫= ComponentFactoryTypes with
  | None =>
      Error ("bad component category: '" +:+ show_optional (dataset_component elem)
             +:+ "'; expected one of: in, out, gate, component")
  | Some make =>
      Returned (λ components,
        match make elem with
        | Returned newComp => Returned (newComp, components ++ [newComp])
        | Error message => Error message
        end)
  end.

End Buttons.

Arguments Returned {A}.
Arguments Error {A}.

End Factories.

(** ** Sample components *)

(** A RAM holding 1010 at address 0, Unknown bits at address 2 and zeros
    elsewhere. *)
Definition ram_example : RAM.RAM16by4 :=
  {| RAM._showContent := true; RAM._trigger := RAM.falling; RAM._lastClock := Unknown;
     RAM.value :=
       {| RAM.mem := [ [LBool false; LBool true; LBool false; LBool true];
                       replicate 4 (LBool false);
                       [Unknown; HighImpedance; LBool true; Unknown] ]
                     ++ replicate 13 (replicate 4 (LBool false));
          RAM.out := replicate 4 (LBool false) |} |}.

(** An output node forced to Unknown, with two outgoing wires, and an input
    node at the end of one of them. *)
Definition forced_output : Node.NodeOut :=
  {| Node.out_base := {| Node.id := 7; Node._isAlive := true;
                         Node._value := LBool true; Node._forceValue := Some Unknown |};
     Node._outgoingWires := [0; 1] |}.

Definition wire_from_forced_output : Node.Wire :=
  {| Node.wire_id := 0; Node.startNode := forced_output |}.

Definition editor_at_5 : Node.LogicEditor nat := {| Node.timeline_adjustedTime := 5 |}.

Definition attached_input : Node.NodeIn :=
  (Node.set_incomingWire editor_at_5 (Some wire_from_forced_output)
     (Node.new_NodeIn {| Node.spec_id := 3 |})).1.

(** The Clock input of a RAM as its constructor leaves it, with a wire
    attached afterwards. *)
Definition attached_clock_input : Node.NodeIn :=
  (Node.set_incomingWire editor_at_5 (Some wire_from_forced_output)
     (Node.set__prefersSpike true (Node.new_NodeIn {| Node.spec_id := 0 |}))).1.

(** Saved node ids with three entries in the [id] field: a bare id, an
    object with an id, and a string in the place of a node. *)
Definition repr_three_entries : Component.json :=
  Component.JObject
    [("id"%string,
      Component.JArray [Component.JNumber 1;
                        Component.JObject [("id"%string, Component.JNumber 2)];
                        Component.JString "x"])].

(** * Properties *)

(** ** ALU *)

Example add_0000_0000 :
  ALU.doRecalcValue (ALU.alu_inputs [] [] (LBool false) (LBool false) (LBool false))
  = ([LBool false; LBool false; LBool false; LBool false], LBool false, LBool true).
Proof. reflexivity. Qed.

Example add_0001_0001 :
  ALU.doRecalcValue
    (ALU.alu_inputs [LBool true] [LBool true] (LBool false) (LBool false) (LBool false))
  = ([LBool false; LBool true; LBool false; LBool false], LBool false, LBool false).
Proof. reflexivity. Qed.

Example sub_0001_0010 :
  ALU.doRecalcValue
    (ALU.alu_inputs [LBool true] [LBool false; LBool true] (LBool true) (LBool false) (LBool false))
  = ([LBool true; LBool true; LBool true; LBool true], LBool true, LBool false).
Proof. reflexivity. Qed.


Section ALU_facts.
Import ALU.

Local Ltac by_cases_on v := destruct v as [[]| |]; try reflexivity.

Lemma op_Unknown_iff inputs :
  op inputs = OpUnknown ↔ indeterminate (inputs INPUT_Op1) ∨ indeterminate (inputs INPUT_Op0).
Proof.
  unfold op, indeterminate.
  destruct (inputs INPUT_Op1) as [[]| |], (inputs INPUT_Op0) as [[]| |];
    intuition congruence.
Qed.

(** Where no operand is HighImpedance the code follows the rule. *)
Lemma sum3bits_without_highZ a b c :
  a ≠ HighImpedance → b ≠ HighImpedance → c ≠ HighImpedance →
  sum3bits a b c = sum3bits_spec a b c.
Proof.
  intros Ha Hb Hc.
  destruct a as [[]| |], b as [[]| |], c as [[]| |]; try congruence; reflexivity.
Qed.

(** Where the first operand (the incoming carry) is HighImpedance the code
    counts three indeterminate operands, whatever the other two are. *)
Lemma sum3bits_highZ_first b c :
  sum3bits HighImpedance b c = (Unknown, Unknown).
Proof. by_cases_on b; by_cases_on c. Qed.

(** A HighImpedance second or third operand is counted as known [false]
    as long as the first operand is known. *)
Lemma sum3bits_highZ_later (x y : bool) :
  sum3bits (LBool x) HighImpedance (LBool y) = sum3bits (LBool x) (LBool false) (LBool y)
  ∧ sum3bits (LBool x) (LBool y) HighImpedance = sum3bits (LBool x) (LBool y) (LBool false).
Proof. destruct x, y; split; reflexivity. Qed.

Lemma sum3bits_spec_carry a b c : (sum3bits_spec a b c).2 ≠ HighImpedance.
Proof. destruct a as [[]| |], b as [[]| |], c as [[]| |]; discriminate. Qed.

(** Addition where no bit of A, of B or the carry-in is HighImpedance:
    the code follows the rule at every bit position, V is the last
    carry-out. *)
Lemma add_without_highZ inputs :
  op inputs = Op add →
  Forall (λ v, v ≠ HighImpedance)
         (inputs INPUT_Cin :: inputValues inputs INPUT_A ++ inputValues inputs INPUT_B) →
  doRecalcValue inputs
  = (let '(y, v) := ripple_spec (inputs INPUT_Cin) (inputValues inputs INPUT_A)
                                (inputValues inputs INPUT_B) in
     (y, v, allZeros y)).
Proof.
  intros Hop Hz. unfold doRecalcValue. rewrite Hop.
  unfold inputValues, INPUT_A, INPUT_B in *. cbn [fmap list_fmap app] in *.
  repeat match goal with
         | H : Forall _ (_ :: _) |- _ => apply Forall_cons in H as [? H]
         end.
  unfold do_add. cbn [length for_loop lookup_total list_lookup_total].
  cbn [ripple_spec].
  repeat match goal with
         | |- context [sum3bits ?c ?x ?y] =>
             rewrite (sum3bits_without_highZ c x y) by done;
             let Hc := fresh "Hc" in
             pose proof (sum3bits_spec_carry c x y) as Hc;
             destruct (sum3bits_spec c x y) as [? ?]; cbn [snd] in Hc
         end.
  reflexivity.
Qed.

Lemma toInt_from_Unknown vs s col :
  Unknown ∈ vs → toInt_from vs s col = None.
Proof.
  revert s col. induction vs as [|v vs IH]; intros s col Hin.
  - by apply elem_of_nil in Hin.
  - apply elem_of_cons in Hin as [<-|Hin]; simpl; [done|].
    destruct (isUnknown v); [done|]. by apply IH.
Qed.

(** Subtraction with an Unknown bit in either operand: every output is
    Unknown. *)
Lemma sub_Unknown_operand inputs :
  op inputs = Op sub →
  Unknown ∈ inputValues inputs INPUT_A ∨ Unknown ∈ inputValues inputs INPUT_B →
  doRecalcValue inputs = ([Unknown; Unknown; Unknown; Unknown], Unknown, Unknown).
Proof.
  intros Hop Hin. unfold doRecalcValue, do_sub. rewrite Hop.
  destruct Hin as [Hin|Hin].
  - unfold toInt. by rewrite (toInt_from_Unknown _ _ _ Hin).
  - unfold toInt at 2. rewrite (toInt_from_Unknown _ _ _ Hin).
    by destruct (toInt _).
Qed.

(** Subtraction of two fully known operands: the result is
    [(a - b) mod 16], bit [i] of the result at index [i]; V is the borrow
    [b > a]; Z tells whether the result is zero. *)
Lemma sub_known inputs (a b : list bool) :
  op inputs = Op sub →
  inputValues inputs INPUT_A = LBool <$> a →
  inputValues inputs INPUT_B = LBool <$> b →
  let r := ((bits_to_Z a - bits_to_Z b) mod 16)%Z in
  doRecalcValue inputs
  = (LBool <$> (Z.testbit r <$> [0; 1; 2; 3]%Z),
     LBool (bits_to_Z b >? bits_to_Z a)%Z,
     LBool (r =? 0)%Z).
Proof.
  intros Hop Ha Hb. unfold doRecalcValue. rewrite Hop, Ha, Hb.
  assert (length a = 4) as La
    by (rewrite <- (length_fmap LBool a), <- Ha; reflexivity).
  assert (length b = 4) as Lb
    by (rewrite <- (length_fmap LBool b), <- Hb; reflexivity).
  destruct a as [|a0 [|a1 [|a2 [|a3 [|]]]]]; try discriminate.
  destruct b as [|b0 [|b1 [|b2 [|b3 [|]]]]]; try discriminate.
  destruct a0, a1, a2, a3, b0, b1, b2, b3; reflexivity.
Qed.

Lemma allZeros_spec (y : list LogicValue) :
  (allZeros y = LBool true ↔ Forall (λ v, v = LBool false) y)
  ∧ (allZeros y = LBool false ↔
       ∃ i, y !! i = Some (LBool true)
            ∧ ∀ j, j < i → y !! j = Some (LBool false))
  ∧ (allZeros y = Unknown ↔
       ∃ i v, y !! i = Some v ∧ indeterminate v
              ∧ ∀ j, j < i → y !! j = Some (LBool false))
  ∧ allZeros y ≠ HighImpedance.
Proof.
  induction y as [|v y (IHt & IHf & IHu & IHz)].
  - simpl. repeat split; try done.
    + intros (i & Hi & _). by destruct i.
    + intros (i & w & Hi & _). by destruct i.
  - destruct v as [[]| |]; simpl.
    + (* a true bit: the flag is false *)
      repeat split; try done.
      * intros Hall. by inversion Hall.
      * intros _. exists 0. split; [done|]. intros j Hj. lia.
      * intros (i & w & Hi & Hw & Hlow). destruct i as [|i].
        -- simplify_eq/=. destruct Hw; done.
        -- specialize (Hlow 0 ltac:(lia)). done.
    + (* a false bit: the rest decides *)
      split; [|split; [|split]]; [| | |done].
      * rewrite IHt. split; [by constructor|]. intros Hall. by inversion Hall.
      * rewrite IHf. split.
        -- intros (i & Hi & Hlow). exists (S i). split; [done|].
           intros [|j] Hj; [done|]. apply Hlow. lia.
        -- intros (i & Hi & Hlow). destruct i as [|i]; [done|].
           exists i. split; [done|]. intros j Hj. apply (Hlow (S j)). lia.
      * rewrite IHu. split.
        -- intros (i & w & Hi & Hw & Hlow). exists (S i), w. repeat split; try done.
           intros [|j] Hj; [done|]. apply Hlow. lia.
        -- intros (i & w & Hi & Hw & Hlow). destruct i as [|i].
           ++ simplify_eq/=. destruct Hw; done.
           ++ exists i, w. repeat split; try done.
              intros j Hj. apply (Hlow (S j)). lia.
    + (* an Unknown bit: the flag is Unknown *)
      repeat split; try done.
      * intros Hall. by inversion Hall.
      * intros (i & Hi & Hlow). destruct i as [|i]; [done|].
        specialize (Hlow 0 ltac:(lia)). done.
      * intros _. exists 0, Unknown. repeat split; [by left|]. intros j Hj. lia.
    + (* a HighImpedance bit: the flag is Unknown *)
      repeat split; try done.
      * intros Hall. by inversion Hall.
      * intros (i & Hi & Hlow). destruct i as [|i]; [done|].
        specialize (Hlow 0 ltac:(lia)). done.
      * intros _. exists 0, HighImpedance. repeat split; [by right|]. intros j Hj. lia.
Qed.

(** The zero flag is [allZeros] of the result bits, whatever the opcode. *)
Lemma doRecalcValue_zero_flag inputs :
  (doRecalcValue inputs).2 = allZeros (doRecalcValue inputs).1.1.
Proof.
  unfold doRecalcValue. destruct (op inputs) as [o|]; [|reflexivity].
  destruct o; simpl.
  - by destruct (do_add _ _ _ _).
  - by destruct (do_sub _ _ _ _).
  - reflexivity.
  - reflexivity.
Qed.

(** The rule of the specification has exactly one answer for every
    result. *)
Lemma zero_flag_as_stated_rule (y : list LogicValue) (z : LogicValue) :
  zero_flag_as_stated y z ↔ z = zero_flag_rule y.
Proof.
  unfold zero_flag_as_stated, zero_flag_rule.
  assert (¬ Exists indeterminate y → ¬ Exists (λ v, v = LBool true) y →
          Forall (λ v, v = LBool false) y) as Hknown.
  { rewrite <- !Forall_Exists_neg. intros Hi Ht.
    apply Forall_forall. intros v Hv.
    pose proof (proj1 (Forall_forall _ _) Hi v Hv) as Hvi.
    pose proof (proj1 (Forall_forall _ _) Ht v Hv) as Hvt.
    destruct v as [[]| |]; try done.
    - destruct Hvi. by left.
    - destruct Hvi. by right. }
  assert (Forall (λ v, v = LBool false) y →
          ¬ Exists indeterminate y ∧ ¬ Exists (λ v, v = LBool true) y) as Hfalse.
  { intros Hall. split; rewrite Exists_exists; intros (v & Hv & Hp);
      rewrite (proj1 (Forall_forall _ _) Hall v Hv) in Hp;
      [by destruct Hp|done]. }
  repeat case_bool_decide; split.
  - intros (_ & Hu & _). by apply Hu.
  - intros ->. split_and!; try done. split; [done|]. intros Hall.
    by destruct (Hfalse Hall).
  - intros (_ & _ & Hf). by apply Hf.
  - intros ->. split_and!; try done. split; [done|]. intros Hall.
    by destruct (Hfalse Hall).
  - intros (Ht & _ & _). apply Ht. by apply Hknown.
  - intros ->. split_and!; try done. split; [|done]. intros _. by apply Hknown.
Qed.

(** [allZeros] and the rule of the specification part only on a result
    with a true bit before an indeterminate one, where [allZeros] has
    returned [false] at the true bit. *)
Lemma allZeros_rule (y : list LogicValue) :
  allZeros y = zero_flag_rule y
  ∨ (allZeros y = LBool false
     ∧ ∃ i j v, i < j ∧ y !! i = Some (LBool true)
                ∧ y !! j = Some v ∧ indeterminate v).
Proof.
  induction y as [|v y IH].
  - left. unfold zero_flag_rule.
    rewrite !bool_decide_eq_false_2; [done| |]; by intros ?%Exists_nil.
  - destruct v as [[]| |].
    + (* a true bit: the scan stops here *)
      destruct (decide (Exists indeterminate y)) as [Hu|Hu].
      * right. split; [done|].
        apply Exists_exists in Hu as (w & Hw & Hind).
        apply list_elem_of_lookup in Hw as (j & Hj).
        exists 0, (S j), w. split_and!; try done. lia.
      * left. unfold zero_flag_rule. simpl.
        case_bool_decide as Hu'; [|done].
        apply Exists_cons in Hu' as [[?|?]|?]; done.
    + (* a false bit: the scan goes on *)
      assert (zero_flag_rule (LBool false :: y) = zero_flag_rule y) as ->.
      { unfold zero_flag_rule.
        rewrite (bool_decide_ext (Exists indeterminate (LBool false :: y))
                                 (Exists indeterminate y)).
        2: { rewrite Exists_cons. split; [|by right].
             intros [[?|?]|?]; done. }
        rewrite (bool_decide_ext (Exists (λ v, v = LBool true) (LBool false :: y))
                                 (Exists (λ v, v = LBool true) y)).
        2: { rewrite Exists_cons. split; [|by right]. intros [?|?]; done. }
        done. }
      destruct IH as [IH|(Hf & i & j & w & Hij & Hi & Hj & Hw)]; [by left|right].
      split; [done|]. exists (S i), (S j), w. split_and!; try done. lia.
    + by left.
    + by left.
Qed.

End ALU_facts.

Section ALU_claims.
Import ALU.

(** C7.  The opcode is decoded from the bits [Op1 Op0] as 00: add,
    01: sub, 10: or, 11: and.  If either opcode bit is indeterminate
    (Unknown or HighImpedance), the decoded operation is Unknown and the
    four result bits, the V flag and the Z flag are all Unknown. *)
Theorem ALU_opcode_decoding (inputs : Inputs) :
  (∀ b1 b0 : bool,
      inputs INPUT_Op1 = LBool b1 → inputs INPUT_Op0 = LBool b0 →
      op inputs = Op (match b1, b0 with
                      | false, false => add
                      | false, true => sub
                      | true, false => or
                      | true, true => and
                      end))
  ∧ (indeterminate (inputs INPUT_Op1) ∨ indeterminate (inputs INPUT_Op0) →
     op inputs = OpUnknown
     ∧ doRecalcValue inputs = ([Unknown; Unknown; Unknown; Unknown], Unknown, Unknown)).
Proof.
  split.
  - intros b1 b0 H1 H0. unfold op. rewrite H1, H0. by destruct b1, b0.
  - intros Hind. apply op_Unknown_iff in Hind.
    split; [done|]. unfold doRecalcValue. by rewrite Hind.
Qed.

Lemma ALU_opcode_decoding_witness :
  op (alu_inputs [] [] (LBool true) (LBool false) (LBool false)) = Op sub
  ∧ doRecalcValue (alu_inputs [LBool true] [] HighImpedance (LBool true) (LBool false))
    = ([Unknown; Unknown; Unknown; Unknown], Unknown, Unknown).
Proof.
  split.
  - apply (proj1 (ALU_opcode_decoding _) false true); reflexivity.
  - apply (proj2 (ALU_opcode_decoding _)). right. right. reflexivity.
Defined.

(** C8: the code departs from the claim when a true result bit comes
    before an indeterminate one.  [allZeros] scans the result bits in index
    order and returns at the first bit that is true, without looking at the
    bits after it: with result bits [true; Unknown; false; false] the ALU
    reports Z = false, where the claim, a result bit being Unknown, asks for
    Z = Unknown.  With the same two bits in the other order the code does
    answer Unknown.  On every other result the flag is the one the claim
    asks for. *)
Theorem ALU_zero_flag_true_bit_hides_Unknown :
  doRecalcValue or_with_true_then_Unknown
  = ([LBool true; Unknown; LBool false; LBool false], LBool false, LBool false)
  ∧ (∀ z, zero_flag_as_stated [LBool true; Unknown; LBool false; LBool false] z
          ↔ z = Unknown)
  ∧ doRecalcValue or_with_Unknown_then_true
    = ([Unknown; LBool true; LBool false; LBool false], LBool false, Unknown)
  ∧ ∀ inputs,
      let '(y, _, z) := doRecalcValue inputs in
      zero_flag_as_stated y z
      ∨ (z = LBool false
         ∧ ∃ i j v, i < j ∧ y !! i = Some (LBool true)
                    ∧ y !! j = Some v ∧ indeterminate v).
Proof.
  split_and!.
  - reflexivity.
  - intros z. by rewrite zero_flag_as_stated_rule.
  - reflexivity.
  - intros inputs. pose proof (doRecalcValue_zero_flag inputs) as Hz.
    destruct (doRecalcValue inputs) as [[y v] z]. simpl in Hz. subst z.
    destruct (allZeros_rule y) as [Heq|Hdiff]; [left|by right].
    by apply zero_flag_as_stated_rule.
Qed.

(** The zero flag that the code computes is decided by the first result
    bit, in index order, that is not [false]: Z is true exactly when all
    result bits are false; Z is false exactly when a true bit comes before
    any indeterminate bit; Z is Unknown exactly when an Unknown or
    HighImpedance bit comes before any true bit.  Z is never
    HighImpedance. *)
Lemma ALU_zero_flag_first_decisive_bit (inputs : Inputs) :
  let '(y, _, z) := doRecalcValue inputs in
  (z = LBool true ↔ Forall (λ v, v = LBool false) y)
  ∧ (z = LBool false ↔
       ∃ i, y !! i = Some (LBool true)
            ∧ ∀ j, j < i → y !! j = Some (LBool false))
  ∧ (z = Unknown ↔
       ∃ i v, y !! i = Some v ∧ indeterminate v
              ∧ ∀ j, j < i → y !! j = Some (LBool false))
  ∧ z ≠ HighImpedance.
Proof.
  pose proof (doRecalcValue_zero_flag inputs) as Hz.
  destruct (doRecalcValue inputs) as [[y v] z]. simpl in Hz. subst z.
  apply allZeros_spec.
Qed.

(** C1: the code departs from the rule at bit 0.  One of the three
    operands (the bit of A) is indeterminate and the known ones sum to 0,
    so by the rule the sum bit and the carry-out are Unknown and the
    carry chain is poisoned; [sum3bits] tests its first operand for
    HighImpedance three times, counts no indeterminate operand and
    answers a known 0 with no carry, and the ALU reports 0000 with
    V = false and Z = true. *)
Theorem ALU_add_highZ_operand_miscounted :
  sum3bits (LBool false) HighImpedance (LBool false) = (LBool false, LBool false)
  ∧ sum3bits_spec (LBool false) HighImpedance (LBool false) = (Unknown, Unknown)
  ∧ doRecalcValue add_highZ_in_A
    = ([LBool false; LBool false; LBool false; LBool false], LBool false, LBool true).
Proof. repeat split. Qed.

(** C3: the code departs from the claim for a HighImpedance operand bit.
    [toInt] gives up on Unknown bits only; a HighImpedance bit goes
    through [Number] and makes the operand NaN, [NaN >>> 0] is 0, and the
    ALU reports 0000 with V = false and Z = true where the claim asks for
    Unknown on all six outputs. *)
Theorem ALU_sub_highZ_operand_not_Unknown :
  toInt (inputValues sub_highZ_in_A INPUT_A) = Some JS.NaN
  ∧ doRecalcValue sub_highZ_in_A
    = ([LBool false; LBool false; LBool false; LBool false], LBool false, LBool true).
Proof. split; reflexivity. Qed.

End ALU_claims.

(** ** RAM: recalculation *)

Section RAM_recalc.
Import RAM.

Lemma bits_value_lt vs n : bits_value vs = Num n → n < 2 ^ length vs.
Proof.
  revert n. induction vs as [|v vs IH]; intros n Hn; simpl in *.
  - injection Hn as <-. lia.
  - destruct v as [b| |]; try discriminate.
    destruct (bits_value vs) as [m|]; try discriminate.
    injection Hn as <-. specialize (IH m eq_refl).
    destruct b; simpl; lia.
Qed.

Lemma currentAddress_lt inputs addr :
  currentAddress inputs = Num addr → addr < NUM_CELLS.
Proof. intros H. apply bits_value_lt in H. exact H. Qed.

Lemma array_init_lookup {A} n (f : nat → A) i :
  i < n → array_init n f !! i = Some (f i).
Proof.
  intros Hi. unfold array_init.
  by rewrite list_lookup_fmap, lookup_seq_lt.
Qed.

Lemma length_array_init {A} n (f : nat → A) : length (array_init n f) = n.
Proof. unfold array_init. by rewrite length_fmap, length_seq. Qed.

(** Reading every cell of an array of [n] cells succeeds. *)
Lemma mapM_read_cells {A B} (f : A → B) (m : list A) n :
  length m = n →
  mapM (λ i, f <$> m !! i) (seq 0 n) = Some (f <$> m).
Proof.
  intros Hlen. apply mapM_Some, Forall2_same_length_lookup. split.
  - by rewrite length_seq, length_fmap.
  - intros i j y Hj Hy. apply lookup_seq in Hj as [-> _].
    by rewrite <- list_lookup_fmap.
Qed.

(** The loop that builds [newState]: the old cells with cell [addr]
    replaced. *)
Lemma mapM_write_cell {A} (d : A) (m : list A) n addr :
  length m = n →
  mapM (λ i, if bool_decide (i = addr) then Some d else m !! i) (seq 0 n)
  = Some (<[addr := d]> m).
Proof.
  intros Hlen. apply mapM_Some, Forall2_same_length_lookup. split.
  - by rewrite length_seq, length_insert.
  - intros i j y Hj Hy. apply lookup_seq in Hj as [-> _]. simpl.
    case_bool_decide as Hi.
    + subst. apply lookup_lt_Some in Hy as Hlt. rewrite length_insert in Hlt.
      by rewrite list_lookup_insert_eq in Hy.
    + by rewrite list_lookup_insert_ne in Hy.
Qed.

(** C2, as stated, fails: on a rising edge with write-enable true and an
    Unknown address, every stored word becomes Unknown. *)
Lemma RAM_recalc_as_stated_fails :
  ¬ recalc_as_stated write_to_Unknown_address ram_clock_low.
Proof.
  intros (v & this' & Hrecalc & Hcase).
  vm_compute in Hrecalc. injection Hrecalc as <- <-.
  vm_compute in Hcase. destruct Hcase as [_ Hmem]. discriminate Hmem.
Qed.

(** C2, amended.  On a RAM holding 16 words, [doRecalcValue] returns a
    value, by this priority order: (1) if clear is true, all 16 words and
    the output are all-false; (2) else if the decoded address is Unknown:
    when write-enable is true and the clock transition satisfies the
    trigger, all 16 words and the output become all-Unknown, otherwise the
    output is all-Unknown and the memory is unchanged; (3) else if
    write-enable is true and the clock transition satisfies the trigger,
    the addressed word is replaced by the 4 data bits, which are also the
    output; (4) otherwise the output is the word at the address and the
    memory is unchanged. *)
Theorem RAM_recalc_priority (inputs : Inputs) (this : RAM16by4) :
  length (mem (value this)) = NUM_CELLS →
  ∃ v this', doRecalcValue inputs this = Some (v, this') ∧
    if bool_decide (inputs INPUT_Clear = LBool true) then
      v = valueFilledWith (LBool false)
      ∧ mem v = replicate 16 (replicate 4 (LBool false))
      ∧ out v = replicate 4 (LBool false)
    else
      match currentAddress inputs with
      | NumUnknown =>
          if writes inputs this then
            mem v = replicate 16 (replicate 4 Unknown)
            ∧ out v = replicate 4 Unknown
          else
            out v = [Unknown; Unknown; Unknown; Unknown] ∧ mem v = mem (value this)
      | Num addr =>
          if writes inputs this then
            mem v = <[addr := inputValues inputs INPUT_Data]> (mem (value this))
            ∧ out v = inputValues inputs INPUT_Data
          else
            mem v = mem (value this) ∧ mem (value this) !! addr = Some (out v)
      end.
Proof.
  intros Hlen. unfold doRecalcValue, writes, strict_eq.
  case_bool_decide as Hclear.
  { eexists _, _. split; [reflexivity|]. repeat split. }
  cbn [value set_lastClock _trigger].
  destruct (currentAddress inputs) as [addr|] eqn:Haddr.
  - apply currentAddress_lt in Haddr.
    destruct (bool_decide (inputs INPUT_WriteEnable = LBool true)); cbn [negb orb andb].
    + destruct (isClockTrigger _ _ _); cbn [negb].
      * rewrite (mapM_write_cell _ _ NUM_CELLS) by done.
        eexists _, _. split; [reflexivity|]. done.
      * destruct (lookup_lt_is_Some_2 (mem (value this)) addr) as [w Hw]; [lia|].
        rewrite Hw. eexists _, _. split; [reflexivity|]. done.
    + destruct (lookup_lt_is_Some_2 (mem (value this)) addr) as [w Hw]; [lia|].
      rewrite Hw. eexists _, _. split; [reflexivity|]. done.
  - destruct (bool_decide (inputs INPUT_WriteEnable = LBool true)); cbn [negb orb andb].
    + destruct (isClockTrigger _ _ _); cbn [negb].
      * eexists _, _. split; [reflexivity|]. done.
      * eexists _, _. split; [reflexivity|]. done.
    + eexists _, _. split; [reflexivity|]. done.
Qed.

Lemma RAM_recalc_priority_witness :
  ∃ v this',
    doRecalcValue write_to_Unknown_address ram_clock_low = Some (v, this')
    ∧ mem v = replicate 16 (replicate 4 Unknown)
    ∧ out v = replicate 4 Unknown.
Proof.
  destruct (RAM_recalc_priority write_to_Unknown_address ram_clock_low eq_refl)
    as (v & this' & Hrecalc & Hcase).
  exists v, this'. split; [exact Hrecalc|]. exact Hcase.
Defined.

(** C10.  While clear is true, a recalculation returns the all-zero
    state and leaves the component as it was: the remembered previous
    clock is neither read nor updated, whatever the clock input is. *)
Theorem RAM_clear_keeps_lastClock (inputs : Inputs) (this : RAM16by4) :
  inputs INPUT_Clear = LBool true →
  ∃ v this', doRecalcValue inputs this = Some (v, this')
    ∧ v = valueFilledWith (LBool false)
    ∧ this' = this
    ∧ _lastClock this' = _lastClock this.
Proof.
  intros Hclear. unfold doRecalcValue. rewrite Hclear. simpl.
  eexists _, _. repeat split.
Qed.

Lemma RAM_clear_keeps_lastClock_witness :
  ∃ v this', doRecalcValue clear_with_clock_high ram_clock_low = Some (v, this')
    ∧ v = valueFilledWith (LBool false)
    ∧ this' = ram_clock_low
    ∧ _lastClock this' = LBool false.
Proof. exact (RAM_clear_keeps_lastClock clear_with_clock_high ram_clock_low eq_refl). Defined.

(** A consequence: the clock rose while clear was true; once clear is
    released with the clock still high, the RAM compares the present clock
    with the one remembered from before the clear, sees a rising edge and
    writes, although the clock does not move. *)
Lemma RAM_edge_seen_after_clear :
  let clock_still_high :=
    ram_inputs (LBool true) (LBool true) (LBool false)
               [LBool false; LBool true; LBool false; LBool true] [] in
  (r ← doRecalcValue clear_with_clock_high ram_clock_low;
   r' ← doRecalcValue clock_still_high
          {| _showContent := _showContent r.2; _trigger := _trigger r.2;
             _lastClock := _lastClock r.2; value := r.1 |};
   Some (mem r'.1 !! 0, out r'.1))
  = Some (Some [LBool false; LBool true; LBool false; LBool true],
          [LBool false; LBool true; LBool false; LBool true]).
Proof. reflexivity. Qed.

(** The test of the specification: write 1010 at address 0 on a rising
    edge, then read it with write-enable false. *)
Lemma RAM_write_then_read :
  (r ← doRecalcValue
         (ram_inputs (LBool true) (LBool true) (LBool false)
                     [LBool false; LBool true; LBool false; LBool true] [])
         ram_clock_low;
   r' ← doRecalcValue
          (ram_inputs (LBool false) (LBool false) (LBool false) [] [])
          {| _showContent := _showContent r.2; _trigger := _trigger r.2;
             _lastClock := _lastClock r.2; value := r.1 |};
   Some (out r'.1))
  = Some [LBool false; LBool true; LBool false; LBool true].
Proof. reflexivity. Qed.

End RAM_recalc.

(** ** RAM: persistence *)

Section RAM_persistence.
Import RAM.

Variable toLogicValueRepr : LogicValue → ascii.
Variable toLogicValueFromChar : ascii → LogicValue.

(** What the round trip needs of the two character tables: reading back
    the character written for a value gives that value, and [false] is
    written as the character the trimming loop looks for. *)
Hypothesis fromChar_toRepr : ∀ v, toLogicValueFromChar (toLogicValueRepr v) = v.
Hypothesis toRepr_false : toLogicValueRepr (LBool false) = "0"%char.

Local Abbreviation cell_repr := (cell_repr toLogicValueRepr).
Local Abbreviation load_row := (load_row toLogicValueFromChar).

Lemma toRepr_zero_inv v : toLogicValueRepr v = "0"%char → v = LBool false.
Proof.
  intros Hv. rewrite <- (fromChar_toRepr v), Hv, <- toRepr_false.
  apply fromChar_toRepr.
Qed.

Lemma cell_repr_length w : String.length (cell_repr w) = length w.
Proof.
  unfold RAM.cell_repr.
  rewrite <- (length_fmap toLogicValueRepr w), <- (length_reverse (_ <$> w)).
  generalize (reverse (toLogicValueRepr <$> w)) as cs.
  induction cs as [|c cs IH]; simpl; congruence.
Qed.

(** Loading the cell written for a 4-bit word gives the word back. *)
Lemma load_row_cell_repr w :
  length w = WORD_WIDTH →
  load_row (list_ascii_of_string (cell_repr w)) 0 WORD_WIDTH
           (FixedArrayFill (LBool false) WORD_WIDTH) = w.
Proof.
  intros Hlen. unfold RAM.cell_repr.
  rewrite list_ascii_of_string_of_list_ascii.
  destruct w as [|w0 [|w1 [|w2 [|w3 [|]]]]]; try discriminate.
  vm_compute. by rewrite !fromChar_toRepr.
Qed.

(** Only the all-false word is written as ["0000"]. *)
Lemma cell_repr_zero_inv w :
  length w = WORD_WIDTH → cell_repr w = "0000"%string →
  w = FixedArrayFill (LBool false) WORD_WIDTH.
Proof.
  intros Hlen Hcell.
  destruct w as [|w0 [|w1 [|w2 [|w3 [|]]]]]; try discriminate.
  unfold RAM.cell_repr in Hcell. cbn in Hcell.
  injection Hcell as H3 H2 H1 H0.
  apply toRepr_zero_inv in H0, H1, H2, H3. by subst.
Qed.

(** The trimming loop keeps a prefix; every cell it drops is ["0000"],
    and the last cell it keeps is not. *)
Lemma trim_cells_spec n (cells : list string) :
  length cells = n →
  ∃ k, k ≤ n
       ∧ trim_cells n cells = take k cells
       ∧ (∀ i, k ≤ i → i < n → cells !! i = Some "0000"%string)
       ∧ last (take k cells) ≠ Some "0000"%string.
Proof.
  revert cells. induction n as [|addr IH]; intros cells Hlen.
  - exists 0. destruct cells; [|done]. split_and!; try done. intros; lia.
  - simpl. case_bool_decide as Hcell.
    + assert (delete addr cells = take addr cells) as ->.
      { rewrite delete_take_drop, drop_ge, app_nil_r by lia. done. }
      destruct (IH (take addr cells)) as (k & Hk & Htrim & Hzeros & Hlast).
      { rewrite length_take. lia. }
      rewrite take_take, Nat.min_l in Htrim, Hlast by done.
      exists k. split_and!; [lia|done| |done].
      intros i Hki Hi. destruct (decide (i = addr)) as [->|Hne]; [done|].
      rewrite <- (lookup_take_lt cells addr i) by lia. apply Hzeros; lia.
    + exists (S addr). rewrite take_ge by lia.
      split_and!; [lia|done|intros; lia|].
      rewrite last_lookup, Hlen. done.
Qed.

(** Saving then loading, for any saved record that carries the content
    [contentRepr] returned. *)
Lemma contentRepr_loads_back (this : RAM16by4) :
  wf_mem (mem (value this)) →
  ∃ saved,
    contentRepr toLogicValueRepr this = Some saved
    ∧ Forall (λ cell, String.length cell = 4) (default [] saved)
    ∧ last (default [] saved) ≠ Some "0000"%string
    ∧ saved ≠ Some []
    ∧ ∀ repr, content repr = saved →
        mem (savedStateFrom toLogicValueFromChar (Some repr)) = mem (value this).
Proof.
  intros [Hlen Hwords]. unfold contentRepr.
  rewrite (mapM_read_cells _ _ NUM_CELLS) by done. cbn [mbind option_bind].
  destruct (trim_cells_spec NUM_CELLS (cell_repr <$> mem (value this)))
    as (k & Hk & -> & Hzeros & Hlast); [by rewrite length_fmap|].
  set (m := mem (value this)) in *.
  set (cells := take k (cell_repr <$> m)) in *.
  assert (Forall (λ cell, String.length cell = 4) cells) as Hcells.
  { apply Forall_take, Forall_fmap. eapply Forall_impl; [exact Hwords|].
    intros w Hw. simpl. by rewrite cell_repr_length. }
  (* what loading finds at a cell index *)
  assert (∀ i w, m !! i = Some w →
            match cells !! i with
            | Some s => load_row (list_ascii_of_string s) 0 WORD_WIDTH
                                 (FixedArrayFill (LBool false) WORD_WIDTH)
            | None => FixedArrayFill (LBool false) WORD_WIDTH
            end = w) as Hrow.
  { intros i w Hw.
    assert (length w = WORD_WIDTH) as Hlw
      by (eapply (proj1 (Forall_lookup _ _) Hwords); exact Hw).
    apply lookup_lt_Some in Hw as Hi.
    destruct (decide (i < k)) as [Hik|Hik].
    - subst cells. rewrite lookup_take_lt, list_lookup_fmap, Hw by done. simpl.
      by apply load_row_cell_repr.
    - subst cells. rewrite lookup_take_ge by lia.
      symmetry. apply cell_repr_zero_inv; [done|].
      specialize (Hzeros i ltac:(lia) ltac:(lia)).
      rewrite list_lookup_fmap, Hw in Hzeros. by injection Hzeros. }
  eexists. split; [reflexivity|].
  case_bool_decide as Hempty.
  - (* nothing left: saved as undefined, loaded as an all-false memory *)
    split_and!; [done|done|done|]. intros repr Hrepr.
    apply nil_length_inv in Hempty. rewrite Hempty in Hrow.
    unfold savedStateFrom. cbn [mbind option_bind]. rewrite Hrepr.
    cbn [mem valueFilledWith].
    apply (list_eq_same_length _ _ NUM_CELLS); [done|by rewrite length_array_init|].
    intros i w w' Hi Hw Hw'. rewrite array_init_lookup in Hw by done.
    injection Hw as <-. exact (Hrow i w' Hw').
  - split_and!; [done|done| |].
    { intros [= Hnil]. rewrite Hnil in Hempty. done. }
    intros repr Hrepr.
    unfold savedStateFrom. cbn [mbind option_bind]. rewrite Hrepr.
    cbn [mem].
    apply (list_eq_same_length _ _ NUM_CELLS); [done|by rewrite length_array_init|].
    intros i w w' Hi Hw Hw'. rewrite array_init_lookup in Hw by done.
    injection Hw as <-. exact (Hrow i w' Hw').
Qed.

(** C6.  On a memory of 16 words of 4 bits, [contentRepr] succeeds; each
    cell it emits is a 4-character string and the last emitted cell is
    not ["0000"] (an all-zero memory is saved as [undefined]);
    [savedStateFrom] on the saved content rebuilds exactly the original
    16-word memory. *)
Theorem RAM_content_round_trip (this : RAM16by4) (sc : option bool) (tr : option EdgeTrigger) :
  wf_mem (mem (value this)) →
  ∃ saved,
    contentRepr toLogicValueRepr this = Some saved
    ∧ Forall (λ cell, String.length cell = 4) (default [] saved)
    ∧ last (default [] saved) ≠ Some "0000"%string
    ∧ saved ≠ Some []
    ∧ mem (savedStateFrom toLogicValueFromChar
             (Some {| showContent := sc; trigger := tr; content := saved |}))
      = mem (value this).
Proof.
  intros Hwf.
  destruct (contentRepr_loads_back this Hwf) as (saved & Hsaved & H4 & Hlast & Hnil & Hload).
  exists saved. split_and!; try done. by apply Hload.
Qed.

(** The same through [toJSON] and the constructor: the memory, the
    trigger and the display option of the rebuilt RAM are the saved ones. *)
Lemma RAM_toJSON_round_trip (this : RAM16by4) :
  wf_mem (mem (value this)) →
  ∃ repr,
    toJSON toLogicValueRepr this = Some repr
    ∧ mem (value (new_RAM16by4 toLogicValueFromChar (Some repr))) = mem (value this)
    ∧ _trigger (new_RAM16by4 toLogicValueFromChar (Some repr)) = _trigger this
    ∧ _showContent (new_RAM16by4 toLogicValueFromChar (Some repr)) = _showContent this.
Proof.
  intros Hwf.
  set (sc := if bool_decide (_showContent this ≠ RAMDefaults_showContent)
             then Some (_showContent this) else None).
  set (tr := if bool_decide (_trigger this ≠ RAMDefaults_trigger)
             then Some (_trigger this) else None).
  destruct (contentRepr_loads_back this Hwf) as (saved & Hsaved & _ & _ & _ & Hmem).
  unfold toJSON. rewrite Hsaved. cbn [mbind option_bind].
  eexists. split; [reflexivity|]. fold sc tr. split_and!; [by apply Hmem| |].
  - subst tr. cbn. by destruct (_trigger this).
  - subst sc. cbn. by destruct (_showContent this).
Qed.

End RAM_persistence.

Lemma RAM_content_round_trip_witness :
  ∃ saved,
    RAM.contentRepr RAM.toLogicValueRepr_char ram_example = Some saved
    ∧ Forall (λ cell, String.length cell = 4) (default [] saved)
    ∧ last (default [] saved) ≠ Some "0000"%string
    ∧ saved ≠ Some []
    ∧ RAM.mem (RAM.savedStateFrom RAM.toLogicValueFromChar_char
                 (Some {| RAM.showContent := None; RAM.trigger := Some RAM.falling;
                          RAM.content := saved |}))
      = RAM.mem (RAM.value ram_example).
Proof.
  apply (RAM_content_round_trip RAM.toLogicValueRepr_char RAM.toLogicValueFromChar_char).
  - intros [[]| |]; reflexivity.
  - reflexivity.
  - split; [reflexivity|]. repeat constructor.
Defined.

Example ram_example_saved :
  RAM.contentRepr RAM.toLogicValueRepr_char ram_example
  = Some (Some ["1010"; "0000"; "?1Z?"]%string).
Proof. reflexivity. Qed.

(** A saved cell shorter than four characters is completed with zeros at
    the high bits; a missing cell is loaded as zero. *)
Example load_short_cells :
  take 3 (RAM.mem (RAM.savedStateFrom RAM.toLogicValueFromChar_char
                     (Some {| RAM.showContent := None; RAM.trigger := None;
                              RAM.content := Some ["1"; "10"]%string |})))
  = [ [LBool true; LBool false; LBool false; LBool false];
      [LBool false; LBool true; LBool false; LBool false];
      [LBool false; LBool false; LBool false; LBool false] ].
Proof. reflexivity. Qed.

(** ** Nodes *)

Section Node_facts.
Import Node.
Context {Timestamp : Type}.
Implicit Types (ed : LogicEditor Timestamp) (val v : LogicValue).

Lemma strict_eq_bool_decide v w : (v === w) = bool_decide (v = w).
Proof. reflexivity. Qed.

Lemma NodeOut_set_value ed val (n : NodeOut) :
  (set_value ed val n).1
  = {| out_base := set__value val (out_base n); _outgoingWires := _outgoingWires n |}.
Proof.
  unfold set_value, strict_eq. case_bool_decide as Heq; simpl; [|done].
  destruct n as [[i a x f] ws]. simpl in *. by subst.
Qed.

Lemma NodeIn_set_value ed val (n : NodeIn) :
  (set_value ed val n).1
  = {| in_base := set__value val (in_base n); _incomingWire := _incomingWire n;
       _prefersSpike := _prefersSpike n |}.
Proof.
  unfold set_value, strict_eq. case_bool_decide as Heq; simpl; [|done].
  destruct n as [[i a x f] w p]. simpl in *. by subst.
Qed.

(** An input node on its life cycle has no forced value, and reads false
    while no wire is attached. *)
Lemma reachable_invariant ed (n : NodeIn) :
  reachable ed n →
  _forceValue (in_base n) = None
  ∧ (_incomingWire n = None → _value (in_base n) = LBool false).
Proof.
  induction 1 as [spec|n wire Hn [IHf IHv]|n v Hn [IHf IHv] Hwire
                  |n b Hn [IHf IHv]|n Hn [IHf IHv]].
  - done.
  - unfold set_incomingWire. destruct wire as [wire|];
      rewrite NodeIn_set_value; simpl; split; done.
  - rewrite NodeIn_set_value. simpl. split; [done|].
    intros Hnone. rewrite Hnone in Hwire. by destruct Hwire.
  - done.
  - done.
Qed.

End Node_facts.

Section Node_claims.
Import Node.
Context {Timestamp : Type}.
Implicit Types (ed : LogicEditor Timestamp) (val v : LogicValue).

(** C4.  The visible value of an output node is the forced value when
    one is defined and the computed value otherwise.  Assigning the
    computed value, or setting or clearing the forced value, is followed
    by an outgoing propagation (the new visible value pushed to every
    outgoing wire) if and only if the operation changed the visible
    value; setting the forced value also asks for a redraw. *)
Theorem NodeOut_visible_value_and_propagation ed (n : NodeOut) :
  value n = default (_value (out_base n)) (forceValue n)
  ∧ (∀ val,
       let '(n', evs) := set_value ed val n in
       _value (out_base n') = val
       ∧ forceValue n' = forceValue n
       ∧ _outgoingWires n' = _outgoingWires n
       ∧ evs = (if bool_decide (value n' = value n) then []
                else outgoing_propagation ed n')
       ∧ (EvAdjustedTime ∈ evs ↔ value n' ≠ value n))
  ∧ (∀ newForceValue,
       let '(n', evs) := set_forceValue ed newForceValue n in
       forceValue n' = newForceValue
       ∧ _value (out_base n') = _value (out_base n)
       ∧ _outgoingWires n' = _outgoingWires n
       ∧ evs = (if bool_decide (value n' = value n) then []
                else outgoing_propagation ed n')
               ++ [EvSetNeedsRedraw "changed forced output value"]
       ∧ (EvAdjustedTime ∈ evs ↔ value n' ≠ value n)).
Proof.
  split_and!.
  - unfold value, forceValue. simpl. by destruct (_forceValue _).
  - intros val. unfold set_value, propagateNewValueIfNecessary.
    rewrite !strict_eq_bool_decide.
    case_bool_decide as Hval; cbn [negb].
    + (* same computed value: nothing happens *)
      rewrite bool_decide_eq_true_2 by done.
      split_and!; try done. split; [by intros ?%elem_of_nil|done].
    + set (n' := with_base _ n).
      case_bool_decide as Hvis; cbn [negb]; split_and!; try done.
      * split; [by intros ?%elem_of_nil|done].
      * split; [done|]. intros _. apply list_elem_of_here.
  - intros f. unfold set_forceValue, propagateNewValueIfNecessary.
    rewrite !strict_eq_bool_decide.
    set (n' := with_base _ n).
    case_bool_decide as Hvis; cbn [negb]; split_and!; try done.
    + split; [|done]. intros Hin. apply list_elem_of_singleton in Hin. discriminate.
    + split; [done|]. intros _. apply list_elem_of_here.
Qed.

(** C5.  An input node on its life cycle (its constructor, then wires
    attached and detached, values delivered by the attached wire,
    [_prefersSpike] assigned, the node destroyed) reads false while it has no
    incoming wire.  Attaching a wire sets its value at once to the visible
    value of the wire's start node (the input node has no forced value of
    its own); detaching the wire sets its value back to false.  Either way
    the owning component is told to recalculate exactly when the visible
    value of the node changed. *)
Theorem NodeIn_follows_incoming_wire ed (n : NodeIn) :
  reachable ed n →
  (_incomingWire n = None → value n = LBool false)
  ∧ (∀ wire,
       let '(n', evs) := set_incomingWire ed (Some wire) n in
       _incomingWire n' = Some wire
       ∧ value n' = value (startNode wire)
       ∧ evs = if bool_decide (value n' = value n) then [] else [EvSetNeedsRecalc])
  ∧ (let '(n', evs) := set_incomingWire ed None n in
     _incomingWire n' = None
     ∧ value n' = LBool false
     ∧ evs = if bool_decide (value n' = value n) then [] else [EvSetNeedsRecalc]).
Proof.
  intros Hn. destruct (reachable_invariant ed n Hn) as [Hforce Hfalse].
  assert (∀ wire val,
    let '(n', evs) :=
      set_value ed val {| in_base := in_base n; _incomingWire := wire;
                          _prefersSpike := _prefersSpike n |} in
    _incomingWire n' = wire ∧ value n' = val
    ∧ evs = if bool_decide (value n' = value n) then [] else [EvSetNeedsRecalc])
    as Hset.
  { intros wire val. unfold set_value, propagateNewValueIfNecessary, value.
    rewrite !strict_eq_bool_decide. simpl. rewrite Hforce.
    case_bool_decide as Hval; cbn [negb]; simpl; rewrite Hforce.
    - subst val. by rewrite bool_decide_eq_true_2.
    - rewrite bool_decide_eq_false_2 by done. done. }
  split_and!.
  - intros Hwire. unfold value. simpl. rewrite Hforce. by apply Hfalse.
  - intros wire. exact (Hset (Some wire) (value (startNode wire))).
  - exact (Hset None (LBool false)).
Qed.

End Node_claims.

Lemma NodeIn_follows_incoming_wire_witness :
  (Node._incomingWire attached_clock_input = None → Node.value attached_clock_input = LBool false)
  ∧ (∀ wire,
       let '(n', evs) := Node.set_incomingWire editor_at_5 (Some wire) attached_clock_input in
       Node._incomingWire n' = Some wire
       ∧ Node.value n' = Node.value (Node.startNode wire)
       ∧ evs = if bool_decide (Node.value n' = Node.value attached_clock_input) then []
               else [Node.EvSetNeedsRecalc])
  ∧ (let '(n', evs) := Node.set_incomingWire editor_at_5 None attached_clock_input in
     Node._incomingWire n' = None
     ∧ Node.value n' = LBool false
     ∧ evs = if bool_decide (Node.value n' = Node.value attached_clock_input) then []
             else [Node.EvSetNeedsRecalc]).
Proof.
  apply (NodeIn_follows_incoming_wire editor_at_5 attached_clock_input).
  apply Node.reachable_set_incomingWire, Node.reachable_set__prefersSpike,
    Node.reachable_new.
Defined.

(** The life cycle reaches the inputs that prefer spikes, such as the
    Clock input of a RAM, and the destroyed ones. *)
Example clock_input_reachable :
  Node.reachable editor_at_5 attached_clock_input
  ∧ Node._prefersSpike attached_clock_input = true
  ∧ Node.reachable editor_at_5 (Node.destroy attached_clock_input)
  ∧ Node._isAlive (Node.in_base (Node.destroy attached_clock_input)) = false.
Proof.
  split_and!; try reflexivity.
  - apply Node.reachable_set_incomingWire, Node.reachable_set__prefersSpike,
      Node.reachable_new.
  - apply Node.reachable_destroy, Node.reachable_set_incomingWire,
      Node.reachable_set__prefersSpike, Node.reachable_new.
Qed.

Example attach_then_detach :
  Node.value attached_input = Unknown
  ∧ (Node.set_incomingWire editor_at_5 (Some wire_from_forced_output)
       (Node.new_NodeIn {| Node.spec_id := 3 |})).2 = [Node.EvSetNeedsRecalc]
  ∧ Node.set_incomingWire editor_at_5 None attached_input
    = (Node.new_NodeIn {| Node.spec_id := 3 |}, [Node.EvSetNeedsRecalc]).
Proof. repeat split. Qed.

Example unforce_output :
  Node.set_forceValue editor_at_5 None forced_output
  = ({| Node.out_base := {| Node.id := 7; Node._isAlive := true;
                            Node._value := LBool true; Node._forceValue := None |};
        Node._outgoingWires := [0; 1] |},
     [Node.EvAdjustedTime;
      Node.EvWirePropagate 0 (LBool true) 5;
      Node.EvWirePropagate 1 (LBool true) 5;
      Node.EvSetNeedsRedraw "changed forced output value"]).
Proof. reflexivity. Qed.

(** ** Node ids of a component *)

Section Component_claims.
Import Component.
Context {TriState : Type} (toTriStateRepr : TriState → json).

Lemma inNodeReprs_collapse (nodes : list (Node TriState)) :
  inNodeReprs nodes = collapse ((λ node, JNumber (id node)) <$> nodes).
Proof. by destruct nodes as [|? [|? ?]]. Qed.

Lemma outNodeReprs_collapse (nodes : list (Node TriState)) :
  outNodeReprs toTriStateRepr nodes = collapse (outReprOne toTriStateRepr <$> nodes).
Proof. by destruct nodes as [|? [|? ?]]. Qed.

(** C9.  The node ids are written in the compact scheme: no node, no
    field; inputs only, a single [id] field with the ids; outputs only, a
    single [id] field with the output entries; both, an [in] and an [out]
    field.  A list of one element is written as the bare element, any
    other as an array.  The entry of an input is its id; the entry of an
    output is its id, or an object with [id] and [force], and it has a
    [force] field if and only if the node has a forced value. *)
Theorem buildNodesRepr_compact_scheme (inputs outputs : list (Node TriState)) :
  let ins := collapse ((λ node, JNumber (id node)) <$> inputs) in
  let outs := collapse (outReprOne toTriStateRepr <$> outputs) in
  buildNodesRepr toTriStateRepr inputs outputs
  = match inputs, outputs with
    | [], [] => JObject []
    | _ :: _, [] => JObject [("id"%string, ins)]
    | [], _ :: _ => JObject [("id"%string, outs)]
    | _ :: _, _ :: _ => JObject [("in"%string, ins); ("out"%string, outs)]
    end
  ∧ (∀ item, collapse [item] = item)
  ∧ (∀ items, length items ≠ 1 → collapse items = JArray items)
  ∧ (∀ node : Node TriState,
       field "force" (outReprOne toTriStateRepr node) = toTriStateRepr <$> forceValue node
       ∧ (is_Some (field "force" (outReprOne toTriStateRepr node))
          ↔ is_Some (forceValue node))
       ∧ (forceValue node = None →
          outReprOne toTriStateRepr node = JNumber (id node))
       ∧ (is_Some (forceValue node) →
          keys (outReprOne toTriStateRepr node) = ["id"; "force"]%string
          ∧ field "id" (outReprOne toTriStateRepr node) = Some (JNumber (id node)))).
Proof.
  split_and!.
  - unfold buildNodesRepr.
    rewrite inNodeReprs_collapse, outNodeReprs_collapse.
    by destruct inputs, outputs.
  - done.
  - intros [|? [|? ?]] Hlen; done.
  - intros [i f]. unfold outReprOne. simpl.
    destruct f as [f|]; simpl; split_and!; try done.
    all: try (by intros [? ?]); split; intros Hsome; try (by eexists);
      by destruct Hsome.
Qed.

Lemma inSpecOne_id (node : Node TriState) :
  inSpecOne (JNumber (id node)) = Some (inSpec_of node).
Proof. reflexivity. Qed.

Lemma outSpecOne_outReprOne (node : Node TriState) :
  outSpecOne (outReprOne toTriStateRepr node) = Some (outSpec_of toTriStateRepr node).
Proof. destruct node as [i [f|]]; reflexivity. Qed.

Lemma mapM_fmap_images {A B C} (f : A → option B) (g : C → A) (h : C → B)
    (l : list C) :
  (∀ x, f (g x) = Some (h x)) → mapM f (g <$> l) = Some (h <$> l).
Proof.
  intros Hfg. induction l as [|x l IH]; [done|].
  cbn [fmap list_fmap mapM]. rewrite Hfg. cbn [mbind option_bind]. rewrite IH. done.
Qed.

Lemma genSpecs_inputs (nodes : list (Node TriState)) :
  nodes ≠ [] →
  genInSpecs (Some (collapse ((λ node, JNumber (id node)) <$> nodes)))
  = Some (inSpec_of <$> nodes).
Proof.
  intros Hne. destruct nodes as [|n0 [|n1 nodes]]; [done|done|].
  unfold collapse, genInSpecs, genSpecs.
  apply (mapM_fmap_images inSpecOne). apply inSpecOne_id.
Qed.

Lemma genSpecs_outputs (nodes : list (Node TriState)) :
  nodes ≠ [] →
  genOutSpecs (Some (collapse (outReprOne toTriStateRepr <$> nodes)))
  = Some (outSpec_of toTriStateRepr <$> nodes).
Proof.
  intros Hne. unfold genOutSpecs. destruct nodes as [|n0 [|n1 nodes]]; [done| |].
  - unfold collapse. cbn [fmap list_fmap].
    by destruct n0 as [i [f|]].
  - unfold collapse, genSpecs.
    apply (mapM_fmap_images outSpecOne). apply outSpecOne_outReprOne.
Qed.

(** Reading back what [buildNodesRepr] wrote gives the ids of the nodes,
    in order, and the forced values of the outputs as they were written. *)
Lemma nodeSpecsFromRepr_buildNodesRepr (inputs outputs : list (Node TriState)) :
  nodeSpecsFromRepr (buildNodesRepr toTriStateRepr inputs outputs)
                    (length inputs) (length outputs)
  = Some (inSpec_of <$> inputs, outSpec_of toTriStateRepr <$> outputs,
          ((λ node, Some (JNumber (id node))) <$> inputs)
          ++ ((λ node, Some (JNumber (id node))) <$> outputs)).
Proof.
  unfold nodeSpecsFromRepr, buildNodesRepr.
  rewrite inNodeReprs_collapse, outNodeReprs_collapse.
  destruct inputs as [|i0 inputs], outputs as [|o0 outputs];
    cbn [length Nat.eqb negb field].
  - reflexivity.
  - change (assoc "id" _) with
      (Some (collapse (outReprOne toTriStateRepr <$> o0 :: outputs))).
    rewrite genSpecs_outputs by done. cbn [mbind option_bind].
    by rewrite <- !list_fmap_compose.
  - change (assoc "id" _) with
      (Some (collapse ((λ node, JNumber (id node)) <$> i0 :: inputs))).
    rewrite genSpecs_inputs by done. cbn [mbind option_bind].
    by rewrite <- !list_fmap_compose.
  - change (assoc "in" _) with
      (Some (collapse ((λ node, JNumber (id node)) <$> i0 :: inputs))).
    change (assoc "out" _) with
      (Some (collapse (outReprOne toTriStateRepr <$> o0 :: outputs))).
    rewrite genSpecs_inputs, genSpecs_outputs by done. cbn [mbind option_bind].
    by rewrite <- !list_fmap_compose.
Qed.

End Component_claims.

Example repr_one_input_two_outputs :
  Component.buildNodesRepr (λ b : bool, Component.JNumber (Nat.b2n b))
    [Component.mkNode 4 None]
    [Component.mkNode 5 None; Component.mkNode 6 (Some true)]
  = Component.JObject
      [("in", Component.JNumber 4);
       ("out", Component.JArray
                 [Component.JNumber 5;
                  Component.JObject [("id", Component.JNumber 6);
                                     ("force", Component.JNumber 1)]])]%string.
Proof. reflexivity. Qed.

(** * Further properties *)

(** ** ALU: arithmetic and logic meaning of the results *)

Section ALU_meaning.
Import ALU ALUMeaning.

Lemma inputValues_A inputs :
  inputValues inputs INPUT_A = [inputs 0; inputs 1; inputs 2; inputs 3].
Proof. reflexivity. Qed.

Lemma inputValues_B inputs :
  inputValues inputs INPUT_B = [inputs 4; inputs 5; inputs 6; inputs 7].
Proof. reflexivity. Qed.

(** Addition of fully known operands: the four result bits are those of
    [(A + B + Cin) mod 16], V is the carry out of bit 3, Z tells whether
    the four result bits are zero. *)
Theorem ALU_add_known (inputs : Inputs) (a b : list bool) (c : bool) :
  op inputs = Op add →
  inputValues inputs INPUT_A = LBool <$> a →
  inputValues inputs INPUT_B = LBool <$> b →
  inputs INPUT_Cin = LBool c →
  let r := (bits_to_Z a + bits_to_Z b + Z.b2z c)%Z in
  doRecalcValue inputs
  = (LBool <$> (Z.testbit r <$> [0; 1; 2; 3]%Z),
     LBool (16 <=? r)%Z,
     LBool (r mod 16 =? 0)%Z).
Proof.
  intros Hop Ha Hb Hc. unfold doRecalcValue. rewrite Hop, Ha, Hb, Hc.
  assert (length a = 4) as La
    by (rewrite <- (length_fmap LBool a), <- Ha; reflexivity).
  assert (length b = 4) as Lb
    by (rewrite <- (length_fmap LBool b), <- Hb; reflexivity).
  destruct a as [|a0 [|a1 [|a2 [|a3 [|]]]]]; try discriminate.
  destruct b as [|b0 [|b1 [|b2 [|b3 [|]]]]]; try discriminate.
  destruct a0, a1, a2, a3, b0, b1, b2, b3, c; reflexivity.
Qed.

Lemma ALU_add_known_witness :
  doRecalcValue
    (alu_inputs [LBool true; LBool true; LBool false; LBool true]
                [LBool true; LBool false; LBool true; LBool false]
                (LBool false) (LBool false) (LBool true))
  = ([LBool true; LBool false; LBool false; LBool false], LBool true, LBool false).
Proof.
  apply (ALU_add_known _ [true; true; false; true] [true; false; true; false] true);
    reflexivity.
Defined.

Lemma bits_to_Z_nonneg bs : (0 ≤ bits_to_Z bs)%Z.
Proof. induction bs as [|[] bs IH]; simpl; lia. Qed.

(** The rule for one bit position never contradicts the true addition:
    whatever the indeterminate operands really are, a known sum bit or
    carry is the right one. *)
Lemma sum3bits_spec_sound c x y rc rx ry :
  refines c rc → refines x rx → refines y ry →
  refines (sum3bits_spec c x y).1 (full_adder rc rx ry).1
  ∧ refines (sum3bits_spec c x y).2 (full_adder rc rx ry).2.
Proof.
  destruct c as [[]| |], x as [[]| |], y as [[]| |], rc, rx, ry;
    simpl; intros; done.
Qed.

Lemma ripple_spec_sound a ra :
  Forall2 refines a ra →
  ∀ b rb c rc, Forall2 refines b rb → refines c rc →
  Forall2 refines (ripple_spec c a b).1 (ripple_bool rc ra rb).1
  ∧ refines (ripple_spec c a b).2 (ripple_bool rc ra rb).2.
Proof.
  induction 1 as [|x rx a ra Hx Ha IH]; intros b rb c rc Hb Hc.
  - simpl. by split.
  - destruct Hb as [|y ry b rb Hy Hb]; [simpl; by split|].
    cbn [ripple_spec ripple_bool].
    destruct (sum3bits_spec_sound c x y rc rx ry Hc Hx Hy) as [Hs Hcout].
    destruct (sum3bits_spec c x y) as [s cout], (full_adder rc rx ry) as [rs rcout].
    simpl in Hs, Hcout.
    destruct (IH b rb cout rcout Hb Hcout) as [Hss Hv].
    destruct (ripple_spec cout a b) as [ss v], (ripple_bool rcout ra rb) as [rss rv].
    simpl in *. split; [by constructor|done].
Qed.

Lemma ripple_bool_arith a :
  ∀ b c, length a = length b →
  (bits_to_Z (ripple_bool c a b).1 + 2 ^ Z.of_nat (length a) * Z.b2z (ripple_bool c a b).2
   = bits_to_Z a + bits_to_Z b + Z.b2z c)%Z
  ∧ length (ripple_bool c a b).1 = length a.
Proof.
  induction a as [|x a IH]; intros [|y b] c Hlen; try discriminate.
  - simpl. split; [lia|done].
  - injection Hlen as Hlen. cbn [ripple_bool].
    destruct (full_adder c x y) as [s cout] eqn:Hfa.
    destruct (IH b cout Hlen) as [Harith Hl].
    destruct (ripple_bool cout a b) as [ss v]. cbn [fst snd] in *.
    cbn [bits_to_Z length]. rewrite Nat2Z.inj_succ, Z.pow_succ_r by lia.
    split; [|by rewrite Hl].
    unfold full_adder in Hfa. injection Hfa as <- <-.
    destruct c, x, y; cbn [Z.b2z xorb andb orb] in *; lia.
Qed.

Lemma allZeros_sound y ry :
  Forall2 refines y ry → refines (allZeros y) (bits_to_Z ry =? 0)%Z.
Proof.
  induction 1 as [|v b y ry Hv Hy IH]; [done|].
  pose proof (bits_to_Z_nonneg ry) as Hnn.
  destruct v as [[]| |]; simpl in *; subst; try done.
  - symmetry. apply Z.eqb_neq. cbn [Z.b2z]. lia.
  - cbn [Z.b2z]. destruct (allZeros y) as [z| |]; simpl in *; try done.
    subst z. destruct (Z.eqb_spec (bits_to_Z ry) 0) as [->|Hne]; [done|].
    symmetry. apply Z.eqb_neq. lia.
Qed.

(** Addition with Unknown bits, no input being HighImpedance: whatever the
    Unknown inputs really are, every known result bit, a known V and a
    known Z are those of the true sum [A + B + Cin]: the four result bits
    read as [(A + B + Cin) mod 16], V as the carry out of bit 3, Z as
    "the result is zero". *)
Theorem ALU_add_sound (inputs : Inputs) (ra rb : list bool) (rc : bool) :
  op inputs = Op add →
  Forall (λ v, v ≠ HighImpedance)
         (inputs INPUT_Cin :: inputValues inputs INPUT_A ++ inputValues inputs INPUT_B) →
  Forall2 refines (inputValues inputs INPUT_A) ra →
  Forall2 refines (inputValues inputs INPUT_B) rb →
  refines (inputs INPUT_Cin) rc →
  ∃ (rs : list bool) (rv : bool),
    length rs = 4
    ∧ (bits_to_Z rs + 16 * Z.b2z rv = bits_to_Z ra + bits_to_Z rb + Z.b2z rc)%Z
    ∧ Forall2 refines (doRecalcValue inputs).1.1 rs
    ∧ refines (doRecalcValue inputs).1.2 rv
    ∧ refines (doRecalcValue inputs).2 (bits_to_Z rs =? 0)%Z.
Proof.
  intros Hop Hz Ha Hb Hc.
  rewrite (add_without_highZ inputs Hop Hz).
  destruct (ripple_spec_sound _ _ Ha _ _ _ _ Hb Hc) as [Hs Hv].
  assert (length ra = length rb) as Hlen.
  { apply Forall2_length in Ha, Hb. rewrite <- Ha, <- Hb. reflexivity. }
  destruct (ripple_bool_arith ra rb rc Hlen) as [Harith Hl].
  assert (length ra = 4) as Hl4 by (apply Forall2_length in Ha; by rewrite <- Ha).
  rewrite Hl4 in Harith, Hl.
  destruct (ripple_spec _ _ _) as [y v], (ripple_bool rc ra rb) as [rs rv].
  cbn [fst snd] in *.
  exists rs, rv. split_and!; try done. by apply allZeros_sound.
Qed.

Lemma ALU_add_sound_witness :
  let inputs := alu_inputs [LBool true; Unknown; LBool false; LBool true]
                           [LBool true; LBool false; Unknown; LBool false]
                           (LBool false) (LBool false) (LBool true) in
  ∃ (rs : list bool) (rv : bool),
    length rs = 4
    ∧ (bits_to_Z rs + 16 * Z.b2z rv
       = bits_to_Z [true; true; false; true] + bits_to_Z [true; false; false; false]
         + Z.b2z true)%Z
    ∧ Forall2 refines (doRecalcValue inputs).1.1 rs
    ∧ refines (doRecalcValue inputs).1.2 rv
    ∧ refines (doRecalcValue inputs).2 (bits_to_Z rs =? 0)%Z.
Proof.
  apply (ALU_add_sound _ [true; true; false; true] [true; false; false; false] true).
  - reflexivity.
  - repeat constructor; discriminate.
  - repeat constructor.
  - repeat constructor.
  - reflexivity.
Defined.

Lemma for_loop_ext {St} (body body' : nat → St → St) n :
  (∀ i s, body i s = body' i s) →
  ∀ start s, for_loop start n body s = for_loop start n body' s.
Proof.
  intros Hext. induction n as [|n IH]; intros start s; [done|].
  simpl. by rewrite Hext, IH.
Qed.

Lemma for_loop_insert4 (f : nat → LogicValue) y0 y1 y2 y3 :
  for_loop 0 4 (λ i y, <[i := f i]> y) [y0; y1; y2; y3] = [f 0; f 1; f 2; f 3].
Proof. reflexivity. Qed.

Local Ltac try_readings Hs :=
  try (assert (H1 := Hs true true ltac:(done) ltac:(done)));
  try (assert (H2 := Hs true false ltac:(done) ltac:(done)));
  try (assert (H3 := Hs false true ltac:(done) ltac:(done)));
  try (assert (H4 := Hs false false ltac:(done) ltac:(done)));
  simpl in *; congruence.

Lemma and_bit_exact (u v : LogicValue) :
  let yi := if (u === LBool false) || (v === LBool false) then LBool false
            else if (u === LBool true) && (v === LBool true) then LBool true
            else Unknown in
  (yi = Unknown ∨ ∃ s, yi = LBool s)
  ∧ ∀ s, yi = LBool s ↔ ∀ x y, refines u x → refines v y → andb x y = s.
Proof.
  destruct u as [[]| |], v as [[]| |]; cbv; (split; [eauto|]);
    intros s; split;
    try discriminate;
    try (intros [= <-] x y Hx Hy; destruct x, y; simpl in *; done);
    intros Hs; try_readings Hs.
Qed.

Lemma or_bit_exact (u v : LogicValue) :
  let yi := if (u === LBool true) || (v === LBool true) then LBool true
            else if (u === LBool false) && (v === LBool false) then LBool false
            else Unknown in
  (yi = Unknown ∨ ∃ s, yi = LBool s)
  ∧ ∀ s, yi = LBool s ↔ ∀ x y, refines u x → refines v y → orb x y = s.
Proof.
  destruct u as [[]| |], v as [[]| |]; cbv; (split; [eauto|]);
    intros s; split;
    try discriminate;
    try (intros [= <-] x y Hx Hy; destruct x, y; simpl in *; done);
    intros Hs; try_readings Hs.
Qed.

(** The bitwise operations, for every input including HighImpedance: V is
    false, and a result bit is the known value [s] exactly when every
    possible reading of the two operand bits gives [s]; otherwise it is
    Unknown.  No result bit is HighImpedance. *)
Theorem ALU_logic_exact (inputs : Inputs) (o : ALUOp) :
  op inputs = Op o → o = and ∨ o = or →
  let f := match o with or => orb | _ => andb end in
  (doRecalcValue inputs).1.2 = LBool false
  ∧ length (doRecalcValue inputs).1.1 = 4
  ∧ ∀ i yi, (doRecalcValue inputs).1.1 !! i = Some yi →
      (yi = Unknown ∨ ∃ s, yi = LBool s)
      ∧ ∀ s, yi = LBool s ↔
             ∀ x y, refines (inputs i) x → refines (inputs (i + 4)) y → f x y = s.
Proof.
  intros Hop Ho f. unfold doRecalcValue. rewrite Hop.
  rewrite inputValues_A, inputValues_B.
  set (a := [inputs 0; inputs 1; inputs 2; inputs 3]).
  set (b := [inputs 4; inputs 5; inputs 6; inputs 7]).
  destruct Ho as [-> | ->]; subst f.
  - unfold do_and. cbn [length a].
    rewrite (for_loop_ext _
      (λ i y, <[i := if (a !!! i === LBool false) || (b !!! i === LBool false)
                     then LBool false
                     else if (a !!! i === LBool true) && (b !!! i === LBool true)
                          then LBool true else Unknown]> y))
      by (intros i s; repeat case_match; done).
    rewrite for_loop_insert4. cbn [fst snd].
    split_and!; [done|done|].
    intros i yi Hi.
    destruct i as [|[|[|[|i]]]]; cbn in Hi; try discriminate;
      injection Hi as <-; apply and_bit_exact.
  - unfold do_or. cbn [length a].
    rewrite (for_loop_ext _
      (λ i y, <[i := if (a !!! i === LBool true) || (b !!! i === LBool true)
                     then LBool true
                     else if (a !!! i === LBool false) && (b !!! i === LBool false)
                          then LBool false else Unknown]> y))
      by (intros i s; repeat case_match; done).
    rewrite for_loop_insert4. cbn [fst snd].
    split_and!; [done|done|].
    intros i yi Hi.
    destruct i as [|[|[|[|i]]]]; cbn in Hi; try discriminate;
      injection Hi as <-; apply or_bit_exact.
Qed.

Lemma ALU_logic_exact_witness :
  let inputs := alu_inputs [LBool false; Unknown; HighImpedance; LBool true]
                           [HighImpedance; LBool true; LBool true; LBool true]
                           (LBool true) (LBool true) (LBool false) in
  (doRecalcValue inputs).1.2 = LBool false
  ∧ length (doRecalcValue inputs).1.1 = 4
  ∧ ∀ i yi, (doRecalcValue inputs).1.1 !! i = Some yi →
      (yi = Unknown ∨ ∃ s, yi = LBool s)
      ∧ ∀ s, yi = LBool s ↔
             ∀ x y, refines (inputs i) x → refines (inputs (i + 4)) y → andb x y = s.
Proof.
  apply (ALU_logic_exact _ and); [reflexivity|by left].
Defined.

Lemma sum3bits_comm c x y : sum3bits c x y = sum3bits c y x.
Proof. destruct c as [[]| |], x as [[]| |], y as [[]| |]; reflexivity. Qed.

(** Addition, AND and OR give the same six outputs when the operands A
    and B are exchanged, whatever the inputs are (HighImpedance
    included). *)
Theorem ALU_commutative (inputs : Inputs) (o : ALUOp) :
  op inputs = Op o → o ≠ sub →
  doRecalcValue (swap_operands inputs) = doRecalcValue inputs.
Proof.
  intros Hop Ho. unfold doRecalcValue.
  change (op (swap_operands inputs)) with (op inputs). rewrite Hop.
  change (inputValues (swap_operands inputs) INPUT_A) with (inputValues inputs INPUT_B).
  change (inputValues (swap_operands inputs) INPUT_B) with (inputValues inputs INPUT_A).
  change (swap_operands inputs INPUT_Cin) with (inputs INPUT_Cin).
  destruct o; [|done| |].
  - unfold do_add.
    change (length (inputValues inputs INPUT_B)) with (length (inputValues inputs INPUT_A)).
    rewrite (for_loop_ext _
      (λ i '(y, prevCin),
         let '(s, cout) := sum3bits prevCin (inputValues inputs INPUT_A !!! i)
                                    (inputValues inputs INPUT_B !!! i) in
         (<[i := s]> y, cout)))
      by (intros i [y c]; by rewrite sum3bits_comm).
    reflexivity.
  - unfold do_and.
    change (length (inputValues inputs INPUT_B)) with (length (inputValues inputs INPUT_A)).
    rewrite (for_loop_ext _
      (λ i y, if (inputValues inputs INPUT_A !!! i === LBool false)
                 || (inputValues inputs INPUT_B !!! i === LBool false)
              then <[i:=LBool false]> y
              else if (inputValues inputs INPUT_A !!! i === LBool true)
                      && (inputValues inputs INPUT_B !!! i === LBool true)
                   then <[i:=LBool true]> y else <[i:=Unknown]> y))
      by (intros i s; by rewrite orb_comm, andb_comm).
    reflexivity.
  - unfold do_or.
    change (length (inputValues inputs INPUT_B)) with (length (inputValues inputs INPUT_A)).
    rewrite (for_loop_ext _
      (λ i y, if (inputValues inputs INPUT_A !!! i === LBool true)
                 || (inputValues inputs INPUT_B !!! i === LBool true)
              then <[i:=LBool true]> y
              else if (inputValues inputs INPUT_A !!! i === LBool false)
                      && (inputValues inputs INPUT_B !!! i === LBool false)
                   then <[i:=LBool false]> y else <[i:=Unknown]> y))
      by (intros i s; by rewrite orb_comm, andb_comm).
    reflexivity.
Qed.

Lemma ALU_commutative_witness :
  doRecalcValue
    (swap_operands (alu_inputs [HighImpedance; LBool true] [Unknown; LBool true; LBool true]
                               (LBool false) (LBool false) Unknown))
  = doRecalcValue (alu_inputs [HighImpedance; LBool true] [Unknown; LBool true; LBool true]
                              (LBool false) (LBool false) Unknown).
Proof. apply (ALU_commutative _ add); [reflexivity|discriminate]. Defined.

(** Subtraction is not: 1 - 0 and 0 - 1 differ. *)
Example ALU_sub_not_commutative :
  let inputs := alu_inputs [LBool true] [] (LBool true) (LBool false) (LBool false) in
  doRecalcValue (swap_operands inputs) ≠ doRecalcValue inputs.
Proof. discriminate. Qed.

(** Subtraction of fully known operands at work: 1 - 3 gives 14 with a
    borrow, whatever the carry input is. *)
Lemma sub_known_witness :
  doRecalcValue
    (alu_inputs [LBool true; LBool false; LBool false; LBool false]
                [LBool true; LBool true; LBool false; LBool false]
                (LBool true) (LBool false) HighImpedance)
  = ([LBool false; LBool true; LBool true; LBool true], LBool true, LBool false).
Proof.
  apply (sub_known _ [true; false; false; false] [true; true; false; false]);
    reflexivity.
Defined.

End ALU_meaning.

(** ** RAM: invariants and sequences of recalculations *)

Section RAM_steps.
Import RAM RAMSteps.

Lemma wf_mem_valueFilledWith v : wf_mem (mem (valueFilledWith v)).
Proof. split; [reflexivity|]. simpl. repeat constructor. Qed.

Lemma wf_mem_insert m addr w :
  wf_mem m → length w = WORD_WIDTH → wf_mem (<[addr := w]> m).
Proof.
  intros [Hlen Hws] Hw. split; [by rewrite length_insert|].
  by apply Forall_insert.
Qed.

(** The shape of the memory is an invariant of [doRecalcValue]: on a
    memory of 16 words of 4 bits it returns a value whose memory again has
    16 words of 4 bits and whose output has 4 bits, for all inputs. *)
Theorem RAM_recalc_keeps_shape (inputs : Inputs) (this : RAM16by4) :
  wf_mem (mem (value this)) →
  ∃ v this', doRecalcValue inputs this = Some (v, this')
    ∧ wf_mem (mem v)
    ∧ length (out v) = WORD_WIDTH.
Proof.
  intros Hwf. pose proof Hwf as [Hlen Hws].
  unfold doRecalcValue.
  destruct (inputs INPUT_Clear === LBool true).
  { eexists _, _. split; [reflexivity|]. split; [apply wf_mem_valueFilledWith|done]. }
  cbn [value set_lastClock _trigger].
  destruct (negb _ || negb _).
  - destruct (currentAddress inputs) as [addr|] eqn:Haddr.
    + apply currentAddress_lt in Haddr.
      destruct (lookup_lt_is_Some_2 (mem (value this)) addr) as [w Hw]; [lia|].
      rewrite Hw. eexists _, _. split; [reflexivity|]. split; [done|].
      cbn [out]. by apply (proj1 (Forall_lookup _ _) Hws addr w).
    + eexists _, _. split; [reflexivity|]. by split.
  - destruct (currentAddress inputs) as [addr|] eqn:Haddr.
    + rewrite (mapM_write_cell _ _ NUM_CELLS) by done.
      eexists _, _. split; [reflexivity|]. split; [|done].
      by apply wf_mem_insert.
    + eexists _, _. split; [reflexivity|].
      split; [apply wf_mem_valueFilledWith|done].
Qed.

Lemma RAM_recalc_keeps_shape_witness :
  ∃ v this', doRecalcValue write_to_Unknown_address ram_example = Some (v, this')
    ∧ wf_mem (mem v)
    ∧ length (out v) = WORD_WIDTH.
Proof.
  apply RAM_recalc_keeps_shape. split; [reflexivity|]. repeat constructor.
Defined.

(** What a recalculation does to the component itself: with clear not
    true, the remembered clock becomes the present clock input, whether or
    not anything is written; the trigger, the display option and the
    committed value are left alone. *)
Theorem RAM_recalc_remembers_clock (inputs : Inputs) (this : RAM16by4) :
  length (mem (value this)) = NUM_CELLS →
  inputs INPUT_Clear ≠ LBool true →
  ∃ v this', doRecalcValue inputs this = Some (v, this')
    ∧ _lastClock this' = inputs INPUT_Clock
    ∧ _trigger this' = _trigger this
    ∧ _showContent this' = _showContent this
    ∧ value this' = value this.
Proof.
  intros Hlen Hclear. unfold doRecalcValue, strict_eq.
  rewrite bool_decide_eq_false_2 by done.
  cbn [value set_lastClock _trigger].
  destruct (negb _ || negb _).
  - destruct (currentAddress inputs) as [addr|] eqn:Haddr.
    + apply currentAddress_lt in Haddr.
      destruct (lookup_lt_is_Some_2 (mem (value this)) addr) as [w Hw]; [lia|].
      rewrite Hw. eexists _, _. split; [reflexivity|]. done.
    + eexists _, _. split; [reflexivity|]. done.
  - destruct (currentAddress inputs) as [addr|] eqn:Haddr.
    + rewrite (mapM_write_cell _ _ NUM_CELLS) by done.
      eexists _, _. split; [reflexivity|]. done.
    + eexists _, _. split; [reflexivity|]. done.
Qed.

Lemma RAM_recalc_remembers_clock_witness :
  ∃ v this', doRecalcValue write_to_Unknown_address ram_example = Some (v, this')
    ∧ _lastClock this' = LBool true
    ∧ _trigger this' = falling
    ∧ _showContent this' = true
    ∧ value this' = value ram_example.
Proof.
  apply (RAM_recalc_remembers_clock write_to_Unknown_address ram_example);
    [reflexivity|discriminate].
Defined.

(** A recalculation with clear not true and write-enable not true is a
    read: it returns the committed memory and the word at the address. *)
Lemma doRecalcValue_read inputs this addr w :
  inputs INPUT_Clear ≠ LBool true →
  inputs INPUT_WriteEnable ≠ LBool true →
  currentAddress inputs = Num addr →
  mem (value this) !! addr = Some w →
  doRecalcValue inputs this
  = Some ({| mem := mem (value this); out := w |}, set_lastClock (inputs INPUT_Clock) this).
Proof.
  intros Hclear Hwe Haddr Hw. unfold doRecalcValue, strict_eq.
  rewrite !bool_decide_eq_false_2 by done.
  cbn [negb orb value set_lastClock]. by rewrite Haddr, Hw.
Qed.

(** A triggered write at a known address returns the memory with that word
    replaced. *)
Lemma doRecalcValue_write inputs this addr :
  length (mem (value this)) = NUM_CELLS →
  inputs INPUT_Clear ≠ LBool true →
  writes inputs this = true →
  currentAddress inputs = Num addr →
  doRecalcValue inputs this
  = Some ({| mem := <[addr := inputValues inputs INPUT_Data]> (mem (value this));
             out := inputValues inputs INPUT_Data |},
          set_lastClock (inputs INPUT_Clock) this).
Proof.
  intros Hlen Hclear Hwrites Haddr. unfold writes in Hwrites.
  apply andb_true_iff in Hwrites as [Hwe Htrig].
  unfold doRecalcValue. unfold strict_eq at 1.
  rewrite bool_decide_eq_false_2 by done.
  cbn [value set_lastClock _trigger]. rewrite Hwe, Htrig, Haddr.
  cbn [negb orb]. by rewrite (mapM_write_cell _ _ NUM_CELLS).
Qed.

(** Write, then read.  After a triggered write of the data inputs at a
    known address has been committed, a read (clear and write-enable not
    true, any clock) at that address returns the written data, a read at
    any other address returns the word that was there before the write,
    and the read leaves the memory as the write made it. *)
Theorem RAM_write_then_read_back (inputs1 inputs2 : Inputs) (this : RAM16by4)
    (addr addr2 : nat) :
  wf_mem (mem (value this)) →
  inputs1 INPUT_Clear ≠ LBool true →
  writes inputs1 this = true →
  currentAddress inputs1 = Num addr →
  inputs2 INPUT_Clear ≠ LBool true →
  inputs2 INPUT_WriteEnable ≠ LBool true →
  currentAddress inputs2 = Num addr2 →
  ∃ this1 v2 this2,
    recalc_and_commit inputs1 this = Some this1
    ∧ doRecalcValue inputs2 this1 = Some (v2, this2)
    ∧ mem v2 = <[addr := inputValues inputs1 INPUT_Data]> (mem (value this))
    ∧ Some (out v2) = (if bool_decide (addr2 = addr)
                       then Some (inputValues inputs1 INPUT_Data)
                       else mem (value this) !! addr2).
Proof.
  intros [Hlen Hws] Hclear1 Hw1 Ha1 Hclear2 Hwe2 Ha2.
  unfold recalc_and_commit.
  rewrite (doRecalcValue_write inputs1 this addr) by done.
  cbn [mbind option_bind].
  set (this1 := commit _ _).
  apply currentAddress_lt in Ha1 as Hlt1. apply currentAddress_lt in Ha2 as Hlt2.
  assert (mem (value this1) !! addr2
          = if bool_decide (addr2 = addr) then Some (inputValues inputs1 INPUT_Data)
            else mem (value this) !! addr2) as Hread.
  { cbn [this1 commit value mem]. case_bool_decide as Heq.
    - subst. apply list_lookup_insert_eq. lia.
    - by apply list_lookup_insert_ne. }
  destruct (lookup_lt_is_Some_2 (mem (value this1)) addr2) as [w Hw].
  { cbn [this1 commit value mem]. rewrite length_insert. lia. }
  exists this1, {| mem := mem (value this1); out := w |},
         (set_lastClock (inputs2 INPUT_Clock) this1).
  split_and!; [done|by apply (doRecalcValue_read inputs2 this1 addr2 w)|done|].
  cbn [out]. by rewrite <- Hw, Hread.
Qed.

Lemma RAM_write_then_read_back_witness :
  let write_1010_at_0 :=
    ram_inputs (LBool true) (LBool true) (LBool false)
               [LBool false; LBool true; LBool false; LBool true] [] in
  let read_at_0 := ram_inputs (LBool true) (LBool false) Unknown [] [] in
  ∃ this1 v2 this2,
    recalc_and_commit write_1010_at_0 ram_clock_low = Some this1
    ∧ doRecalcValue read_at_0 this1 = Some (v2, this2)
    ∧ mem v2 = <[0 := [LBool false; LBool true; LBool false; LBool true]]>
                 (mem (value ram_clock_low))
    ∧ Some (out v2) = Some [LBool false; LBool true; LBool false; LBool true].
Proof.
  intros write_1010_at_0 read_at_0.
  apply (RAM_write_then_read_back write_1010_at_0 read_at_0 ram_clock_low 0 0);
    try reflexivity; try discriminate.
  split; [reflexivity|]. repeat constructor.
Defined.

(** Clear, then read.  After a recalculation with clear true has been
    committed, a read at any known address returns 0000, whatever the
    memory held before. *)
Theorem RAM_clear_then_read (inputs1 inputs2 : Inputs) (this : RAM16by4) (addr2 : nat) :
  inputs1 INPUT_Clear = LBool true →
  inputs2 INPUT_Clear ≠ LBool true →
  inputs2 INPUT_WriteEnable ≠ LBool true →
  currentAddress inputs2 = Num addr2 →
  ∃ this1 v2 this2,
    recalc_and_commit inputs1 this = Some this1
    ∧ doRecalcValue inputs2 this1 = Some (v2, this2)
    ∧ out v2 = [LBool false; LBool false; LBool false; LBool false]
    ∧ mem v2 = replicate 16 [LBool false; LBool false; LBool false; LBool false].
Proof.
  intros Hclear1 Hclear2 Hwe2 Ha2.
  unfold recalc_and_commit, doRecalcValue at 1. rewrite Hclear1.
  cbn [strict_eq bool_decide decide_rel mbind option_bind].
  change (LBool true === LBool true) with true. cbn [mbind option_bind].
  set (this1 := commit _ _).
  apply currentAddress_lt in Ha2 as Hlt2.
  assert (mem (value this1) !! addr2
          = Some [LBool false; LBool false; LBool false; LBool false]) as Hw.
  { exact (array_init_lookup NUM_CELLS (λ _, FixedArrayFill (LBool false) WORD_WIDTH)
             addr2 Hlt2). }
  eexists this1, _, _. split; [done|].
  split; [by apply (doRecalcValue_read inputs2 this1 addr2)|]. done.
Qed.

Lemma RAM_clear_then_read_witness :
  ∃ this1 v2 this2,
    recalc_and_commit clear_with_clock_high ram_example = Some this1
    ∧ doRecalcValue (ram_inputs (LBool false) Unknown HighImpedance [] [LBool false; LBool true])
                    this1 = Some (v2, this2)
    ∧ out v2 = [LBool false; LBool false; LBool false; LBool false]
    ∧ mem v2 = replicate 16 [LBool false; LBool false; LBool false; LBool false].
Proof.
  apply (RAM_clear_then_read clear_with_clock_high
           (ram_inputs (LBool false) Unknown HighImpedance [] [LBool false; LBool true])
           ram_example 2); try reflexivity; discriminate.
Defined.

End RAM_steps.

(** ** RAM: what loading makes of any saved content *)

Section RAM_loading.
Import RAM.

Variable toLogicValueFromChar : ascii → LogicValue.

Local Abbreviation load_row := (load_row toLogicValueFromChar).

(** The loop over [j] in closed form: position [k] of the row is
    overwritten with the [k]-th character from the end of the saved cell,
    as far as the loop goes, the cell has characters and the row has
    positions. *)
Lemma load_row_lookup savedBits n :
  ∀ j row k,
    load_row savedBits j n row !! k
    = if bool_decide (j ≤ k ∧ k < j + n ∧ k < length savedBits ∧ k < length row)
      then toLogicValueFromChar <$> reverse savedBits !! k
      else row !! k.
Proof.
  induction n as [|n IH]; intros j row k.
  - simpl. rewrite bool_decide_eq_false_2 by lia. done.
  - cbn [RAM.load_row].
    destruct (Z.leb_spec 0 (Z.of_nat (length savedBits) - Z.of_nat j - 1)) as [Hjj|Hjj].
    + assert (j < length savedBits) as Hj by lia.
      replace (Z.to_nat (Z.of_nat (length savedBits) - Z.of_nat j - 1))
        with (length savedBits - S j) by lia.
      rewrite <- reverse_lookup by done.
      destruct (lookup_lt_is_Some_2 (reverse savedBits) j) as [c Hc];
        [by rewrite length_reverse|].
      rewrite Hc, IH, length_insert.
      destruct (decide (k = j)) as [->|Hne].
      * rewrite bool_decide_eq_false_2 by lia.
        case_bool_decide as Hrow.
        -- rewrite Hc. simpl. apply list_lookup_insert_eq. lia.
        -- rewrite list_insert_ge by lia. done.
      * rewrite list_lookup_insert_ne by done.
        apply (f_equal (λ b : bool, if b then _ else _)).
        apply bool_decide_ext. lia.
    + rewrite bool_decide_eq_false_2 by lia. done.
Qed.

Lemma load_row_closed savedBits :
  load_row savedBits 0 WORD_WIDTH (FixedArrayFill (LBool false) WORD_WIDTH)
  = take 4 ((toLogicValueFromChar <$> reverse savedBits) ++ replicate 4 (LBool false)).
Proof.
  apply list_eq. intros k.
  rewrite load_row_lookup, lookup_take.
  change (length (FixedArrayFill (LBool false) WORD_WIDTH)) with 4.
  change WORD_WIDTH with 4. unfold FixedArrayFill.
  destruct (decide (k < 4)) as [Hk|Hk].
  - destruct (decide (k < length savedBits)) as [Hlen|Hlen].
    + rewrite bool_decide_eq_true_2 by lia.
      rewrite lookup_app_l by (rewrite length_fmap, length_reverse; lia).
      by rewrite list_lookup_fmap.
    + rewrite bool_decide_eq_false_2 by lia.
      rewrite lookup_app_r by (rewrite length_fmap, length_reverse; lia).
      rewrite !lookup_replicate_2; [done| |lia].
      rewrite length_fmap, length_reverse. lia.
  - rewrite bool_decide_eq_false_2 by lia.
    apply lookup_replicate_None. lia.
Qed.

(** Loading a saved content whose cells are strings of ASCII characters,
    of any length and number, bit strings or not: the memory always has
    16 words of 4 bits and the output is word 0.  Word [i] is read from
    cell [i] of the content alone: its bit [j] is the [j]-th character
    from the end of the cell, for the last four characters; a cell shorter
    than four characters, or missing, leaves the remaining bits false; the
    characters before the last four and the cells after the sixteenth are
    ignored. *)
Theorem RAM_load_ascii_content (sc : option bool) (tr : option EdgeTrigger)
    (cells : list string) :
  Forall (λ cell, ascii_cell cell = true) cells →
  let v := savedStateFrom toLogicValueFromChar
             (Some {| showContent := sc; trigger := tr; content := Some cells |}) in
  wf_mem (mem v)
  ∧ mem v !! 0 = Some (out v)
  ∧ ∀ i, i < NUM_CELLS →
      mem v !! i
      = Some (take 4 ((toLogicValueFromChar
                         <$> reverse (list_ascii_of_string (default ""%string (cells !! i))))
                      ++ replicate 4 (LBool false))).
Proof.
  intros _. cbn [savedStateFrom mbind option_bind content].
  set (row_at := λ i : nat, match cells !! i with
                            | Some s => _
                            | None => _
                            end).
  assert (∀ i, row_at i
               = take 4 ((toLogicValueFromChar
                            <$> reverse (list_ascii_of_string (default ""%string (cells !! i))))
                         ++ replicate 4 (LBool false))) as Hrow.
  { intros i. unfold row_at. destruct (cells !! i) as [s|]; simpl.
    - apply load_row_closed.
    - reflexivity. }
  cbn [mem out]. split_and!.
  - split; [apply length_array_init|].
    apply Forall_lookup. intros i w Hw.
    apply lookup_lt_Some in Hw as Hi. rewrite length_array_init in Hi.
    rewrite array_init_lookup in Hw by done. injection Hw as <-.
    rewrite Hrow, length_take, length_app, length_replicate.
    change WORD_WIDTH with 4. lia.
  - apply array_init_lookup. change NUM_CELLS with 16. lia.
  - intros i Hi. rewrite array_init_lookup by done. by rewrite Hrow.
Qed.

End RAM_loading.

(** Three saved cells: a short one, one with five characters of which one
    is no bit, and an empty one. *)
Lemma RAM_load_ascii_content_witness :
  let v := RAM.savedStateFrom RAM.toLogicValueFromChar_char
             (Some {| RAM.showContent := None; RAM.trigger := None;
                      RAM.content := Some ["1"; "1x010"; ""]%string |}) in
  RAM.mem v !! 0 = Some [LBool true; LBool false; LBool false; LBool false]
  ∧ RAM.mem v !! 1 = Some [LBool false; LBool true; LBool false; Unknown]
  ∧ RAM.mem v !! 2 = Some [LBool false; LBool false; LBool false; LBool false]
  ∧ RAM.mem v !! 15 = Some [LBool false; LBool false; LBool false; LBool false].
Proof.
  intros v.
  destruct (RAM_load_ascii_content RAM.toLogicValueFromChar_char None None
              ["1"; "1x010"; ""]%string) as (_ & _ & Hcells).
  - repeat constructor.
  - split_and!; (rewrite Hcells; [reflexivity|]); vm_compute; lia.
Defined.

(** ** Nodes: forcing, wires, orientation *)

Section Node_more.
Import Node NodeMore.
Context {Timestamp : Type}.
Implicit Types (ed : LogicEditor Timestamp) (val v : LogicValue).

(** While an output node is forced, assigning computed values reaches no
    wire: the visible value stays the forced one and no call at all is made,
    although the computed value is stored. *)
Theorem NodeOut_forced_hides_computed ed (node : NodeOut) (f val : LogicValue) :
  forceValue node = Some f →
  (set_value ed val node).2 = []
  ∧ value (set_value ed val node).1 = f
  ∧ _value (out_base (set_value ed val node).1) = val
  ∧ forceValue (set_value ed val node).1 = Some f.
Proof.
  intros Hf. destruct node as [[i a x fo] ws]. cbv [forceValue out_base _forceValue] in Hf.
  subst fo.
  unfold set_value, propagateNewValueIfNecessary, value, forceValue.
  rewrite !strict_eq_bool_decide. simpl.
  case_bool_decide as Hval; cbn [negb]; simpl.
  - by subst.
  - by rewrite bool_decide_eq_true_2.
Qed.

(** Assigning the value a node already holds does nothing: after one
    assignment, the same assignment again leaves the node as it is and
    makes no call, for output and for input nodes. *)
Theorem Node_set_value_again ed val (nout : NodeOut) (nin : NodeIn) :
  set_value ed val (set_value ed val nout).1 = ((set_value ed val nout).1, [])
  ∧ set_value ed val (set_value ed val nin).1 = ((set_value ed val nin).1, []).
Proof.
  split.
  - rewrite NodeOut_set_value. unfold set_value at 1. simpl.
    by rewrite strict_eq_bool_decide, bool_decide_eq_true_2.
  - rewrite NodeIn_set_value. unfold set_value at 1. simpl.
    by rewrite strict_eq_bool_decide, bool_decide_eq_true_2.
Qed.

Lemma indexOf_None wire wires : indexOf wire wires = None ↔ wire ∉ wires.
Proof.
  induction wires as [|w0 rest IH]; simpl.
  - split; [intros _; apply not_elem_of_nil|done].
  - rewrite not_elem_of_cons. case_bool_decide as Hw.
    + split; [done|]. intros [Hne _]. by subst.
    + destruct (indexOf wire rest) as [i|]; simpl.
      * split; [done|]. intros [_ Hnot]. by apply IH in Hnot.
      * split; [|done]. intros _. split; [done|]. by apply IH.
Qed.

Lemma indexOf_Some wire wires i :
  indexOf wire wires = Some i →
  ∃ l1 l2, wires = l1 ++ (wire :: l2) ∧ (wire ∉ l1) ∧ length l1 = i
           ∧ delete i wires = l1 ++ l2.
Proof.
  revert i. induction wires as [|w0 rest IH]; intros i Hi; simpl in Hi; [done|].
  case_bool_decide as Hw.
  - injection Hi as <-. subst w0. exists [], rest. split_and!; try done.
    apply not_elem_of_nil.
  - destruct (indexOf wire rest) as [j|] eqn:Hj; [|done]. injection Hi as <-.
    destruct (IH j eq_refl) as (l1 & l2 & -> & Hnot & Hlen & Hdel).
    exists (w0 :: l1), l2. split_and!; try done.
    + apply not_elem_of_cons. split; [done|done].
    + simpl. by rewrite Hlen.
    + simpl. by rewrite Hdel.
Qed.

(** The outgoing wires of an output node.  [removeOutgoingWire] takes
    out the first occurrence of the wire and nothing else, and leaves the
    node alone when the wire is not attached; removing a wire that was just
    added to a node without it gives the node back; a node with a wire
    just added is not disconnected. *)
Theorem NodeOut_outgoing_wires (wire : WireId) (node : NodeOut) :
  (wire ∈ _outgoingWires node →
     ∃ l1 l2, _outgoingWires node = l1 ++ (wire :: l2) ∧ (wire ∉ l1)
              ∧ _outgoingWires (removeOutgoingWire wire node) = l1 ++ l2)
  ∧ (wire ∉ _outgoingWires node →
       removeOutgoingWire wire node = node
       ∧ removeOutgoingWire wire (addOutgoingWire wire node) = node)
  ∧ out_base (removeOutgoingWire wire node) = out_base node
  ∧ isDisconnected (addOutgoingWire wire node) = false.
Proof.
  split_and!.
  - intros Hin. unfold removeOutgoingWire.
    destruct (indexOf wire (_outgoingWires node)) as [i|] eqn:Hi.
    + destruct (indexOf_Some _ _ _ Hi) as (l1 & l2 & Hw & Hnot & _ & Hdel).
      exists l1, l2. by split_and!.
    + by apply indexOf_None in Hi.
  - intros Hnot. split.
    + unfold removeOutgoingWire. by rewrite (proj2 (indexOf_None _ _) Hnot).
    + unfold removeOutgoingWire, addOutgoingWire. cbn [_outgoingWires out_base].
      destruct (indexOf wire (_outgoingWires node ++ [wire])) as [i|] eqn:Hi.
      * destruct (indexOf_Some _ _ _ Hi) as (l1 & l2 & Hw & Hnot1 & _ & ->).
        assert (l2 = [] ∧ l1 = _outgoingWires node) as [-> ->].
        { destruct l2 as [|x l2 _] using rev_ind.
          - apply app_inj_tail in Hw as [? _]. by split.
          - rewrite app_comm_cons, app_assoc in Hw.
            apply app_inj_tail in Hw as [Hw ->].
            exfalso. apply Hnot. rewrite Hw. apply elem_of_app. right. left. }
        rewrite app_nil_r. by destruct node.
      * apply indexOf_None in Hi. exfalso. apply Hi, elem_of_app. right. left.
  - unfold removeOutgoingWire. by destruct (indexOf _ _).
  - unfold isDisconnected, addOutgoingWire. cbn [_outgoingWires].
    apply bool_decide_eq_false_2. rewrite length_app. simpl. lia.
Qed.

(** The compass of a node.  The direction in which a wire is prolonged is
    always opposite to the side of the canvas the node faces once the
    orientation of its parent is applied, the same rotation that
    [updatePositionFromParent] applies to the grid offsets; that rotation
    keeps the distance to the parent and is the identity for an
    east-oriented parent. *)
Theorem Node_wire_direction_opposes_side (parent_orient orient : Orientation) (x y : Z) :
  (let '(sx, sy) := towards orient in
   let '(ax, ay) := appliedGridOffset parent_orient sx sy in
   towards (wireProlongDirection parent_orient orient) = (- ax, - ay)%Z)
  ∧ (let '(ax, ay) := appliedGridOffset parent_orient x y in
     (ax * ax + ay * ay = x * x + y * y)%Z)
  ∧ appliedGridOffset orient_e x y = (x, y).
Proof.
  split_and!.
  - by destruct parent_orient, orient.
  - destruct parent_orient; simpl; lia.
  - done.
Qed.

(** The mismatch warning of a node is shown exactly in full mode on a
    node whose forced value differs from its computed value, neither of
    them being Unknown; so never on a node that is not forced, and never
    without the forced marker. *)
Theorem Node_warning_only_when_forced (mode_ge_FULL : bool) (node : NodeOut) :
  (showForcedWarning mode_ge_FULL node = true ↔
     mode_ge_FULL = true
     ∧ ∃ f, forceValue node = Some f
            ∧ f ≠ _value (out_base node) ∧ f ≠ Unknown ∧ _value (out_base node) ≠ Unknown)
  ∧ (showForcedWarning mode_ge_FULL node = true → showForced mode_ge_FULL node = true)
  ∧ (forceValue node = None → showForcedWarning mode_ge_FULL node = false).
Proof.
  destruct node as [[i a x fo] ws].
  unfold showForcedWarning, showForced, value, forceValue. simpl.
  split_and!.
  - destruct mode_ge_FULL; simpl; [|split; [done|by intros [? _]]].
    destruct fo as [f|]; simpl.
    + rewrite strict_eq_bool_decide.
      destruct x as [[]| |], f as [[]| |]; simpl; split;
        try done; try (intros [_ (f' & [= <-] & H1 & H2 & H3)]; done);
        intros _; (split; [done|]); eexists; split_and!; done.
    + rewrite strict_eq_bool_decide, bool_decide_eq_true_2 by done.
      rewrite andb_false_r. split; [done|]. by intros [_ (f' & Hf & _)].
  - destruct mode_ge_FULL; simpl; [|done].
    destruct fo as [f|]; simpl; [done|].
    rewrite strict_eq_bool_decide, bool_decide_eq_true_2 by done.
    by rewrite andb_false_r.
  - intros ->. rewrite strict_eq_bool_decide, bool_decide_eq_true_2 by done.
    by rewrite !andb_false_r.
Qed.

Lemma nextForceValue_cycle f : Nat.iter 5 nextForceValue f = f.
Proof. by destruct f as [[[]| |]|]. Qed.

Lemma nextForceValue_reaches f target :
  ∃ k, k < 5 ∧ Nat.iter k nextForceValue f = target.
Proof.
  destruct f as [[[]| |]|], target as [[[]| |]|];
    first [ by exists 0; split; [lia|]
          | by exists 1; split; [lia|]
          | by exists 2; split; [lia|]
          | by exists 3; split; [lia|]
          | by exists 4; split; [lia|] ].
Qed.

(** Forcing by double click.  A double click that the superclass did not
    handle, in full mode, with the alt key, on an output whose parent allows
    forced outputs, is answered with true and moves the forced value one
    step along the cycle undefined, Unknown, HighImpedance, false, true;
    the computed value and the wires are untouched.  Five such double
    clicks bring the node back to what it was, and every forcing (none
    included) is reached within four. *)
Theorem NodeOut_double_click_cycle ed (click : DoubleClick) (node : NodeOut) :
  superHandled click = false →
  mode_ge_FULL click = true → altKey click = true → allowsForcedOutputs click = true →
  let step := λ nd, (mouseDoubleClicked ed click nd).1.1 in
  (mouseDoubleClicked ed click node).2 = true
  ∧ forceValue (step node) = nextForceValue (forceValue node)
  ∧ _value (out_base (step node)) = _value (out_base node)
  ∧ _outgoingWires (step node) = _outgoingWires node
  ∧ Nat.iter 5 step node = node
  ∧ ∀ target, ∃ k, k < 5 ∧ forceValue (Nat.iter k step node) = target.
Proof.
  intros Hsuper Hmode Halt Hallows step.
  assert (∀ nd, step nd
                = {| out_base := set__forceValue (nextForceValue (_forceValue (out_base nd)))
                                                 (out_base nd);
                     _outgoingWires := _outgoingWires nd |}) as Hstep.
  { intros nd. unfold step, mouseDoubleClicked.
    by rewrite Hsuper, Hmode, Halt, Hallows. }
  assert (∀ k nd, Nat.iter k step nd
                  = {| out_base := set__forceValue
                                     (Nat.iter k nextForceValue (_forceValue (out_base nd)))
                                     (out_base nd);
                       _outgoingWires := _outgoingWires nd |}) as Hiter.
  { induction k as [|k IH]; intros nd.
    - by destruct nd as [[] ?].
    - change (Nat.iter (S k) step nd) with (step (Nat.iter k step nd)).
      by rewrite Hstep, IH. }
  split_and!.
  - unfold mouseDoubleClicked. by rewrite Hsuper, Hmode, Halt, Hallows.
  - by rewrite Hstep.
  - by rewrite Hstep.
  - by rewrite Hstep.
  - rewrite Hiter, nextForceValue_cycle. by destruct node as [[] ?].
  - intros target.
    destruct (nextForceValue_reaches (forceValue node) target) as (k & Hk & Hreach).
    exists k. split; [done|]. by rewrite Hiter.
Qed.

(** Any other double click leaves the node alone and makes no call; it is
    answered with true only if the superclass handled it. *)
Lemma NodeOut_double_click_refused ed (click : DoubleClick) (node : NodeOut) :
  superHandled click = true
  ∨ mode_ge_FULL click && altKey click && allowsForcedOutputs click = false →
  mouseDoubleClicked ed click node = (node, [], superHandled click).
Proof.
  unfold mouseDoubleClicked.
  destruct (superHandled click); [done|]. intros [?|Hguard]; [done|].
  rewrite andb_true_r, Hguard. done.
Qed.

End Node_more.

Lemma NodeOut_double_click_cycle_witness :
  let click := {| NodeMore.superHandled := false; NodeMore.mode_ge_FULL := true;
                  NodeMore.altKey := true; NodeMore.allowsForcedOutputs := true |} in
  let step := λ nd, (NodeMore.mouseDoubleClicked editor_at_5 click nd).1.1 in
  (NodeMore.mouseDoubleClicked editor_at_5 click forced_output).2 = true
  ∧ Node.forceValue (step forced_output) = Some HighImpedance
  ∧ Node._value (Node.out_base (step forced_output)) = LBool true
  ∧ Node._outgoingWires (step forced_output) = [0; 1]
  ∧ Nat.iter 5 step forced_output = forced_output
  ∧ ∀ target, ∃ k, k < 5 ∧ Node.forceValue (Nat.iter k step forced_output) = target.
Proof.
  intros click step.
  apply (NodeOut_double_click_cycle editor_at_5 click forced_output); reflexivity.
Defined.

Lemma NodeOut_forced_hides_computed_witness :
  (Node.set_value editor_at_5 (LBool false) forced_output).2 = []
  ∧ Node.value (Node.set_value editor_at_5 (LBool false) forced_output).1 = Unknown
  ∧ Node._value (Node.out_base (Node.set_value editor_at_5 (LBool false) forced_output).1)
    = LBool false
  ∧ Node.forceValue (Node.set_value editor_at_5 (LBool false) forced_output).1
    = Some Unknown.
Proof.
  apply (NodeOut_forced_hides_computed editor_at_5 forced_output Unknown (LBool false)).
  reflexivity.
Defined.

(** ** Propagation of a recalculated value to the output nodes *)

Section Propagation.
Import Node Propagate.
Context {Timestamp : Type}.
Implicit Types (ed : LogicEditor Timestamp).

Lemma NodeOut_set_value_same ed val (node : NodeOut) :
  _value (out_base node) = val → set_value ed val node = (node, []).
Proof.
  intros <-. unfold set_value.
  by rewrite strict_eq_bool_decide, bool_decide_eq_true_2.
Qed.

(** [ALU.propagateValue] on the six output nodes of an ALU and a value
    with four result bits: node [i] is assigned component [i] of
    [S0..S3, V, Z] through its setter and no other node is touched; the calls
    made are those of the six assignments, in this order. *)
Theorem ALU_propagateValue_each ed (newValue : ALU.ALUValue) (outputs : list NodeOut) :
  length outputs = 6 → length newValue.1.1 = 4 →
  let vals := newValue.1.1 ++ [newValue.1.2; newValue.2] in
  ALU_propagateValue ed newValue outputs
  = Some (zip_with (λ node v, (set_value ed v node).1) outputs vals,
          concat (zip_with (λ node v, (set_value ed v node).2) outputs vals)).
Proof.
  intros Hout Hval. destruct newValue as [[S V] Z]. cbn [fst snd] in *.
  destruct outputs as [|o0 [|o1 [|o2 [|o3 [|o4 [|o5 [|]]]]]]]; try discriminate.
  destruct S as [|s0 [|s1 [|s2 [|s3 [|]]]]]; try discriminate.
  unfold ALU_propagateValue, assign_outputs, assign_output, ALU_OUTPUT_S.
  cbn [fst snd lookup list_lookup mbind option_bind zip_with app concat].
  repeat (destruct (set_value ed _ _) as [? ?];
          cbn [fst snd lookup list_lookup mbind option_bind insert list_insert app
               ALU_OUTPUT_V ALU_OUTPUT_Z]).
  by rewrite !app_nil_r, <- !app_assoc.
Qed.

Lemma NodeOut_set_value_twice ed val (node : NodeOut) :
  set_value ed val (set_value ed val node).1 = ((set_value ed val node).1, []).
Proof.
  apply NodeOut_set_value_same. by rewrite NodeOut_set_value.
Qed.

Local Ltac run_assignments ed :=
  repeat (rewrite ?NodeOut_set_value_twice;
          cbn [fst snd lookup list_lookup mbind option_bind insert list_insert app
               zip_with concat ALU_OUTPUT_V ALU_OUTPUT_Z]).

(** Propagating the same value twice: on the six output nodes of an ALU,
    [propagateValue] succeeds, and a second [propagateValue] of the same
    value on the nodes it left changes no node and makes no call at all. *)
Theorem ALU_propagateValue_again ed (newValue : ALU.ALUValue) (outputs : list NodeOut) :
  length outputs = 6 → length newValue.1.1 = 4 →
  ∃ outputs' evs,
    ALU_propagateValue ed newValue outputs = Some (outputs', evs)
    ∧ ALU_propagateValue ed newValue outputs' = Some (outputs', []).
Proof.
  intros Hout Hval. destruct newValue as [[S V] Z]. cbn [fst snd] in *.
  destruct outputs as [|o0 [|o1 [|o2 [|o3 [|o4 [|o5 [|]]]]]]]; try discriminate.
  destruct S as [|s0 [|s1 [|s2 [|s3 [|]]]]]; try discriminate.
  exists [(set_value ed s0 o0).1; (set_value ed s1 o1).1; (set_value ed s2 o2).1;
          (set_value ed s3 o3).1; (set_value ed V o4).1; (set_value ed Z o5).1].
  exists (concat [(set_value ed s0 o0).2; (set_value ed s1 o1).2; (set_value ed s2 o2).2;
                  (set_value ed s3 o3).2; (set_value ed V o4).2; (set_value ed Z o5).2]).
  split.
  - unfold ALU_propagateValue, assign_outputs, assign_output, ALU_OUTPUT_S.
    cbn [fst snd lookup list_lookup mbind option_bind concat].
    repeat (destruct (set_value ed _ _) as [? ?];
            cbn [fst snd lookup list_lookup mbind option_bind insert list_insert app
                 ALU_OUTPUT_V ALU_OUTPUT_Z]).
    by rewrite !app_nil_r, <- !app_assoc.
  - unfold ALU_propagateValue, assign_outputs, assign_output, ALU_OUTPUT_S.
    cbn [fst snd lookup list_lookup mbind option_bind].
    run_assignments ed. reflexivity.
Qed.

(** [RAM16by4.propagateValue] on the four output nodes of a RAM and a
    value with a 4-bit output: node [i] is assigned bit [i] of the output
    word through its setter, the calls made are those of the four
    assignments in order, and propagating the same value again changes no
    node and makes no call. *)
Theorem RAM_propagateValue_each ed (newValue : RAM.RAMValue) (outputs : list NodeOut) :
  length outputs = 4 → length (RAM.out newValue) = 4 →
  let outputs' := zip_with (λ node v, (set_value ed v node).1) outputs (RAM.out newValue) in
  RAM_propagateValue ed newValue outputs
  = Some (outputs',
          concat (zip_with (λ node v, (set_value ed v node).2) outputs (RAM.out newValue)))
  ∧ RAM_propagateValue ed newValue outputs' = Some (outputs', []).
Proof.
  intros Hout Hval. destruct newValue as [m q]. cbn [RAM.out] in *.
  destruct outputs as [|o0 [|o1 [|o2 [|o3 [|]]]]]; try discriminate.
  destruct q as [|q0 [|q1 [|q2 [|q3 [|]]]]]; try discriminate.
  unfold RAM_propagateValue, assign_outputs, assign_output, RAM_OUTPUT_Q.
  cbn [RAM.out fst snd lookup list_lookup mbind option_bind zip_with app concat].
  split.
  - repeat (destruct (set_value ed _ _) as [? ?];
            cbn [fst snd lookup list_lookup mbind option_bind insert list_insert app]).
    by rewrite !app_nil_r, <- ?app_assoc.
  - run_assignments ed. reflexivity.
Qed.

End Propagation.

(** The six output nodes of an ALU, the last one forced. *)
Lemma ALU_propagateValue_each_witness :
  let outputs := replicate 5 (Node.mkNodeOut (Node.mkNodeBase 0 true (LBool false) None) [0])
                 ++ [forced_output] in
  let newValue := ([LBool true; LBool false; Unknown; LBool false], LBool true, LBool false) in
  let vals := newValue.1.1 ++ [newValue.1.2; newValue.2] in
  Propagate.ALU_propagateValue editor_at_5 newValue outputs
  = Some (zip_with (λ node v, (Node.set_value editor_at_5 v node).1) outputs vals,
          concat (zip_with (λ node v, (Node.set_value editor_at_5 v node).2) outputs vals)).
Proof.
  intros outputs newValue.
  apply (ALU_propagateValue_each editor_at_5 newValue outputs); reflexivity.
Defined.

Lemma ALU_propagateValue_again_witness :
  let outputs := replicate 5 (Node.mkNodeOut (Node.mkNodeBase 0 true (LBool false) None) [0])
                 ++ [forced_output] in
  let newValue := ([LBool true; LBool false; Unknown; LBool false], LBool true, LBool false) in
  ∃ outputs' evs,
    Propagate.ALU_propagateValue editor_at_5 newValue outputs = Some (outputs', evs)
    ∧ Propagate.ALU_propagateValue editor_at_5 newValue outputs' = Some (outputs', []).
Proof.
  intros outputs newValue.
  apply (ALU_propagateValue_again editor_at_5 newValue outputs); reflexivity.
Defined.

Lemma RAM_propagateValue_each_witness :
  let outputs := replicate 3 (Node.mkNodeOut (Node.mkNodeBase 0 true (LBool false) None) [0])
                 ++ [forced_output] in
  let newValue := RAM.valueFilledWith Unknown in
  let outputs' := zip_with (λ node v, (Node.set_value editor_at_5 v node).1) outputs
                           (RAM.out newValue) in
  Propagate.RAM_propagateValue editor_at_5 newValue outputs
  = Some (outputs',
          concat (zip_with (λ node v, (Node.set_value editor_at_5 v node).2) outputs
                           (RAM.out newValue)))
  ∧ Propagate.RAM_propagateValue editor_at_5 newValue outputs' = Some (outputs', []).
Proof.
  intros outputs newValue.
  apply (RAM_propagateValue_each editor_at_5 newValue outputs); reflexivity.
Defined.

(** ** The life of a component *)

Section Component_life.
Import ComponentLife.
Variable setPosition : Z → Z → bool → Z * Z → Z * Z.

Local Abbreviation run := (run setPosition).
Local Abbreviation apply_op := (apply_op setPosition).

Lemma apply_op_stage o c : stage (state (apply_op o c).1) ≥ stage (state c).
Proof.
  destruct c as [[] [m|] p ns], o as [g| |];
    cbn [ComponentLife.apply_op]; unfold mousePressed, mouseReleased, destroy, state;
    simpl; try lia;
    destruct (_ && _); simpl; lia.
Qed.

Lemma apply_op_spawning o c :
  (state c = SPAWNING → isMoving c = false) →
  state (apply_op o c).1 = SPAWNING → isMoving (apply_op o c).1 = false.
Proof.
  destruct c as [[] [m|] p ns], o as [g| |];
    cbn [ComponentLife.apply_op]; unfold mousePressed, mouseReleased, destroy, state, isMoving;
    simpl; try done;
    destruct (_ && _); simpl; done.
Qed.

Lemma run_stage ops : ∀ c, stage (state (run ops c).1) ≥ stage (state c).
Proof.
  induction ops as [|o ops IH]; intros c; [simpl; lia|].
  cbn [ComponentLife.run]. pose proof (apply_op_stage o c) as Ho.
  destruct (apply_op o c) as [c1 calls1]. specialize (IH c1).
  destruct (run ops c1). simpl in *. lia.
Qed.

Lemma run_spawning ops : ∀ c,
  (state c = SPAWNING → isMoving c = false) →
  state (run ops c).1 = SPAWNING → isMoving (run ops c).1 = false.
Proof.
  induction ops as [|o ops IH]; intros c Hinv; [done|].
  cbn [ComponentLife.run]. pose proof (apply_op_spawning o c Hinv) as Ho.
  destruct (apply_op o c) as [c1 calls1]. specialize (IH c1 Ho).
  by destruct (run ops c1).
Qed.

Lemma run_cons o ops c :
  (run (o :: ops) c).1 = (run ops (apply_op o c).1).1.
Proof.
  cbn [ComponentLife.run]. destruct (apply_op o c) as [c1 calls1].
  cbn [fst]. by destruct (run ops c1).
Qed.

(** The states of a component.  Whatever handlers run on it, in whatever
    order: its state only moves forward through spawning, spawned, dead; once
    [destroy] has run it is dead for good; while it is still spawning it is
    not moving by a mouse offset; and after [mouseReleased] it is never
    moving by a mouse offset. *)
Theorem Component_states_move_forward (ops : list Op) (c : Component) :
  stage (state (run ops c).1) ≥ stage (state c)
  ∧ (OpDestroy ∈ ops → state (run ops c).1 = DEAD)
  ∧ ((state c = SPAWNING → isMoving c = false) →
     state (run ops c).1 = SPAWNING → isMoving (run ops c).1 = false)
  ∧ isMoving (mouseReleased c).1 = false.
Proof.
  split_and!.
  - apply run_stage.
  - revert c. induction ops as [|o ops IH]; intros c Hin.
    + by apply elem_of_nil in Hin.
    + rewrite run_cons. apply elem_of_cons in Hin as [<-|Hin]; [|by apply IH].
      pose proof (run_stage ops (apply_op OpDestroy c).1) as Hst.
      change (state (apply_op OpDestroy c).1) with DEAD in Hst.
      destruct (state (run ops _).1); simpl in Hst; try lia; done.
  - apply run_spawning.
  - unfold mouseReleased, isMoving.
    destruct (_isMovingWithMouseOffset c) eqn:Hm; simpl; [done|]. by rewrite Hm.
Qed.

(** A component from its constructor on: if it is still spawning after
    some handlers have run, it was not restored from saved data and it is
    not moving by a mouse offset. *)
Theorem Component_new_spawning (ops : list Op) (restored : bool) (p : Z * Z)
    (nodes : list nat) :
  let c := (run ops (new_Component restored p nodes).1).1 in
  state c = SPAWNING → isMoving c = false ∧ restored = false.
Proof.
  intros c Hc. subst c. split.
  - revert Hc. apply run_spawning. by destruct restored.
  - destruct restored; [|done].
    pose proof (run_stage ops (new_Component true p nodes).1) as Hst.
    rewrite Hc in Hst. simpl in Hst. lia.
Qed.

End Component_life.

Lemma Component_new_spawning_witness :
  let c := (ComponentLife.run (λ x y _ _, (x, y)) [ComponentLife.OpMouseReleased]
              (ComponentLife.new_Component false (0, 0)%Z [1; 2]).1).1 in
  ComponentLife.isMoving c = false ∧ false = false.
Proof.
  apply (Component_new_spawning (λ x y _ _, (x, y)) [ComponentLife.OpMouseReleased]
           false (0, 0)%Z [1; 2]).
  reflexivity.
Defined.

(** ** Reading node ids back *)

Section Component_reading.
Import Component.

Lemma inSpecOne_is_Some (inRepr : json) : is_Some (inSpecOne inRepr) ↔ inRepr ≠ JNull.
Proof. destruct inRepr; cbn; split; intros H; try done; by destruct H. Qed.

Lemma outSpecOne_is_Some (outRepr : json) : is_Some (outSpecOne outRepr) ↔ outRepr ≠ JNull.
Proof. destruct outRepr; cbn; split; intros H; try done; by destruct H. Qed.

Lemma genSpecs_is_Some {Spec} (one : json → option Spec) reprs :
  (∀ r, is_Some (one r) ↔ r ≠ JNull) →
  is_Some (genSpecs one reprs) ↔ readable reprs.
Proof.
  intros Hone.
  assert (∀ r, is_Some (spec ← one r; Some [spec]) ↔ r ≠ JNull) as Hsingle.
  { intros r. rewrite <- Hone. destruct (one r); cbn; split; intros [? ?]; try done;
      by eexists. }
  destruct reprs as [r|]; [|by split; [intros [? ?]|]].
  destruct r; cbn [genSpecs readable]; try apply Hsingle.
  rewrite mapM_is_Some, Forall_forall. split.
  - intros Hall Hin. by apply (proj1 (Hone JNull) (Hall JNull Hin)).
  - intros Hnot r Hr. apply Hone. by intros ->.
Qed.

Lemma genSpecs_length {Spec} (one : json → option Spec) reprs specs :
  genSpecs one reprs = Some specs → length specs = entries reprs.
Proof.
  destruct reprs as [r|]; [|done].
  destruct r; cbn [genSpecs entries];
    try (destruct (one _); cbn; intros [= <-]; done).
  intros Hspecs. symmetry. by eapply length_mapM.
Qed.

(** [nodeSpecsFromRepr] on saved data never checks the arity.  The numbers
    of inputs and outputs only decide, by being zero or not, which fields
    are read ([in] and [out], or [id] alone, or none); the number of specs
    returned is the number of entries found in the fields read.  Reading
    the specs ends in a TypeError exactly when a field that is read is
    missing, is [null], or is an array with a [null] entry; a string, a
    boolean, an array or an object without [id] in the place of a node
    gives a spec with an undefined id.  The ids handed to [markIDUsed] are
    those of the specs, inputs first. *)
Theorem nodeSpecsFromRepr_no_arity_check (_repr : json) (numInputs numOutputs : nat) :
  _repr ≠ JNull →
  nodeSpecsFromRepr _repr numInputs numOutputs
  = nodeSpecsFromRepr _repr (Nat.min 1 numInputs) (Nat.min 1 numOutputs)
  ∧ (is_Some (nodeSpecsFromRepr _repr numInputs numOutputs) ↔
       match numInputs, numOutputs with
       | 0, 0 => True
       | S _, S _ => readable (field "in" _repr) ∧ readable (field "out" _repr)
       | _, _ => readable (field "id" _repr)
       end)
  ∧ (∀ inputSpecs outputSpecs ids,
       nodeSpecsFromRepr _repr numInputs numOutputs
       = Some (inputSpecs, outputSpecs, ids) →
       (length inputSpecs, length outputSpecs)
       = match numInputs, numOutputs with
         | 0, 0 => (0, 0)
         | S _, 0 => (entries (field "id" _repr), 0)
         | 0, S _ => (0, entries (field "id" _repr))
         | S _, S _ => (entries (field "in" _repr), entries (field "out" _repr))
         end
       ∧ ids = (in_spec_id <$> inputSpecs) ++ (out_spec_id <$> outputSpecs)).
Proof.
  intros _. split_and!.
  - by destruct numInputs, numOutputs.
  - unfold nodeSpecsFromRepr, genInSpecs, genOutSpecs.
    destruct numInputs, numOutputs; cbn [Nat.eqb negb].
    + split; [done|]. intros _. by eexists.
    + rewrite <- (genSpecs_is_Some outSpecOne) by apply outSpecOne_is_Some.
      destruct (genSpecs outSpecOne _); simpl; split; intros [? ?]; try done; by eexists.
    + rewrite <- (genSpecs_is_Some inSpecOne) by apply inSpecOne_is_Some.
      destruct (genSpecs inSpecOne _); simpl; split; intros [? ?]; try done; by eexists.
    + rewrite <- (genSpecs_is_Some inSpecOne) by apply inSpecOne_is_Some.
      rewrite <- (genSpecs_is_Some outSpecOne) by apply outSpecOne_is_Some.
      destruct (genSpecs inSpecOne _), (genSpecs outSpecOne _); simpl; split;
        try (intros [[? ?] [? ?]]; done); try (intros [? ?]; done);
        intros _; try split; by eexists.
  - intros inputSpecs outputSpecs ids.
    unfold nodeSpecsFromRepr, genInSpecs, genOutSpecs.
    destruct numInputs, numOutputs; cbn [Nat.eqb negb].
    + by intros [= <- <- <-].
    + destruct (genSpecs outSpecOne _) as [specs|] eqn:Hout; [|done].
      cbn. intros [= <- <- <-]. by rewrite (genSpecs_length _ _ _ Hout).
    + destruct (genSpecs inSpecOne _) as [specs|] eqn:Hin; [|done].
      cbn. intros [= <- <- <-]. by rewrite (genSpecs_length _ _ _ Hin).
    + destruct (genSpecs inSpecOne _) as [specs|] eqn:Hin; [|done].
      destruct (genSpecs outSpecOne _) as [specs'|] eqn:Hout; [|done].
      cbn. intros [= <- <- <-].
      by rewrite (genSpecs_length _ _ _ Hin), (genSpecs_length _ _ _ Hout).
Qed.

(** A representation with three entries for a component that declares
    five inputs: three specs come back, the third with no id. *)
Lemma nodeSpecsFromRepr_no_arity_check_witness :
  nodeSpecsFromRepr repr_three_entries 5 0 = nodeSpecsFromRepr repr_three_entries 1 0
  ∧ is_Some (nodeSpecsFromRepr repr_three_entries 5 0)
  ∧ (length <$> (fst <$> (fst <$> nodeSpecsFromRepr repr_three_entries 5 0))) = Some 3.
Proof.
  pose proof (nodeSpecsFromRepr_no_arity_check repr_three_entries 5 0) as Hspecs.
  destruct Hspecs as (Harity & Hsome & Hlen); [discriminate|].
  split_and!.
  - exact Harity.
  - apply Hsome. cbn. rewrite !not_elem_of_cons. split_and!; try done.
    apply not_elem_of_nil.
  - destruct (nodeSpecsFromRepr repr_three_entries 5 0) as [[[ins outs] ids]|] eqn:Hr;
      [|done].
    destruct (Hlen ins outs ids eq_refl) as [[= Hins _] _]. cbn. by rewrite Hins.
Defined.

(** An input written as an object with an [id] is read like the bare id;
    an output written as an object gets a [force] key whether or not the
    object has one; [null] in the place of a node cannot be read. *)
Lemma specs_from_objects (i : nat) :
  inSpecOne (JObject [("id"%string, JNumber i)]) = inSpecOne (JNumber i)
  ∧ (out_spec_force <$> outSpecOne (JObject [("id"%string, JNumber i)])) = Some (Some None)
  ∧ (out_spec_force <$> outSpecOne (JNumber i)) = Some None
  ∧ inSpecOne JNull = None ∧ outSpecOne JNull = None.
Proof. done. Qed.

End Component_reading.

(** ** Gates *)

Section Gate_facts.
Import Gate.
Variable new_node : nat → GNode.
Variable initial_pos : Z * Z.

Local Abbreviation new_Gate := (new_Gate new_node initial_pos).
Local Abbreviation from := (from new_node initial_pos).

(** Saving and restoring a gate.  [Gate.from] on a saved type, position
    and first node id always succeeds and gives a gate that is saved back as
    exactly these three; its nodes carry consecutive ids from the saved one
    on, inputs first, then the output, whatever ids the constructor had
    given them: one input for a NOT gate, two for any other. *)
Theorem Gate_from_toJSON (strType : string) (pos : Z * Z) (nodeStartID : nat) :
  ∃ g, from strType pos nodeStartID = Some g
    ∧ toJSON g = {| repr_type := strType; repr_id := nodeStartID; repr_pos := pos |}
    ∧ type g = convertToType strType
    ∧ isSpawned g = true ∧ isSaved g = true
    ∧ length (input g) = (if bool_decide (type g = NOT) then 1 else 2)
    ∧ (id <$> input g) ++ (id <$> option_list (output g))
      = seq nodeStartID (S (length (input g))).
Proof.
  unfold Gate.from, Gate.new_Gate, refreshNodes. cbn [type input output Gate.nodeStartID].
  destruct pos as [x y].
  destruct (convertToType strType) eqn:Htype;
    repeat (case_bool_decide; try congruence);
    cbn; eexists; (split; [reflexivity|]); cbn; rewrite ?Htype; done.
Qed.

(** A gate as its constructor builds it always has a value: the inputs
    that [calculateValue] reads exist.  The value is the truth function of
    the gate's type on the input values; NAND, NOR and XNOR are the negations
    of AND, OR and XOR. *)
Theorem Gate_calculateValue_total (strType : string) :
  let g := new_Gate strType in
  ∃ x y, value <$> input g !! 0 = Some x
    ∧ (type g ≠ NOT → value <$> input g !! 1 = Some y)
    ∧ calculateValue g
      = Some (match type g with
              | NOT => negb x
              | AND => x && y
              | NAND => negb (x && y)
              | OR => x || y
              | NOR => negb (x || y)
              | XOR => xorb x y
              | XNOR => negb (xorb x y)
              end).
Proof.
  unfold Gate.new_Gate, calculateValue. cbn [type input].
  exists (value (new_node 0)), (value (new_node 1)).
  destruct (convertToType strType);
    repeat (case_bool_decide; try congruence); cbn;
    (split; [done|]); (split; [done|]);
    destruct (value (new_node 0)), (value (new_node 1)); done.
Qed.

Lemma ascii_toUpperCase_idem c :
  ascii_toUpperCase (ascii_toUpperCase c) = ascii_toUpperCase c.
Proof. destruct c as [[] [] [] [] [] [] [] []]; reflexivity. Qed.

Lemma toUpperCase_idem str : toUpperCase (toUpperCase str) = toUpperCase str.
Proof.
  induction str as [|c rest IH]; [done|].
  simpl. by rewrite ascii_toUpperCase_idem, IH.
Qed.

(** Gate type names are matched without regard to the case of the
    letters a to z: a name and its upper-case form give the same type, so do
    two names with the same upper-case form; a name that matches none of the
    seven gives an AND gate. *)
Theorem Gate_convertToType_ignores_case (str str' : string) :
  convertToType (toUpperCase str) = convertToType str
  ∧ (toUpperCase str = toUpperCase str' → convertToType str = convertToType str')
  ∧ (toUpperCase str ∉ ["NOT"; "AND"; "NAND"; "OR"; "NOR"; "XOR"; "XNOR"]%string →
     convertToType str = AND).
Proof.
  split_and!.
  - unfold convertToType. by rewrite toUpperCase_idem.
  - unfold convertToType. by intros ->.
  - intros Hnot. unfold convertToType.
    repeat match goal with
           | |- context [String.eqb ?u ?name] =>
               destruct (String.eqb_spec u name) as [Heq|_];
               [exfalso; apply Hnot; rewrite Heq;
                repeat first [apply list_elem_of_here | apply list_elem_of_further]|]
           end.
    done.
Qed.

End Gate_facts.

(** ** Factories *)

Section Factory_facts.
Import Factories.
Context {Payload : Type}.

Lemma OutputFactory_make_cases (savedDataOrType : SavedDataOrType Payload) :
  let arg := match savedDataOrType with
             | SavedData savedData => Some savedData
             | _ => None
             end in
  match given_type savedDataOrType with
  | None => OutputFactory_make Payload savedDataOrType = Some (OutputBit, arg)
  | Some type =>
      ((type ∈ output_types)
       ∧ ∃ c, c ≠ OutputBit ∧ OutputFactory_make Payload savedDataOrType = Some (c, arg))
      ∨ ((type ∉ output_types) ∧ OutputFactory_make Payload savedDataOrType = None)
  end.
Proof.
  assert (∀ type blank savedData,
    let arg := if blank : bool then None else savedData in
    ((type ∈ output_types)
     ∧ ∃ c, c ≠ OutputBit
            ∧ (if String.eqb type "nibble" then Some (OutputNibble, arg)
               else if String.eqb type "7seg" then Some (Output7Seg, arg)
               else if String.eqb type "16seg" then Some (Output16Seg, arg)
               else if String.eqb type "ascii" then Some (OutputAscii, arg)
               else if String.eqb type "bar" then Some (OutputBar, arg)
               else if String.eqb type "shiftbuffer" then Some (OutputShiftBuffer, arg)
               else None) = Some (c, (arg : option (OutputRepr Payload))))
    ∨ ((type ∉ output_types)
       ∧ (if String.eqb type "nibble" then Some (OutputNibble, arg)
          else if String.eqb type "7seg" then Some (Output7Seg, arg)
          else if String.eqb type "16seg" then Some (Output16Seg, arg)
          else if String.eqb type "ascii" then Some (OutputAscii, arg)
          else if String.eqb type "bar" then Some (OutputBar, arg)
          else if String.eqb type "shiftbuffer" then Some (OutputShiftBuffer, arg)
          else None) = None)) as Hswitch.
  { intros type blank savedData arg. unfold output_types.
    repeat match goal with
           | |- context [String.eqb type ?name] =>
               destruct (String.eqb_spec type name) as [->|?];
               [left; split;
                [repeat first [apply list_elem_of_here | apply list_elem_of_further]
                |eexists; split; [|reflexivity]; discriminate]|]
           end.
    right. split; [|done].
    rewrite !not_elem_of_cons. split_and!; try done. apply not_elem_of_nil. }
  destruct savedDataOrType as [|type|[[type|] rest]]; cbn.
  - reflexivity.
  - apply (Hswitch type true None).
  - apply (Hswitch type false (Some _)).
  - reflexivity.
Qed.

(** [OutputFactory.make] returns [undefined] exactly when it is given a
    type name, as a string or inside saved data, that is not one of nibble,
    7seg, 16seg, ascii, bar, shiftbuffer.  Without a type name it makes an
    [OutputBit], with one of the six names never.  The saved data reach the
    constructor unchanged; a type name alone, or nothing, gives [null]. *)
Theorem OutputFactory_make_undefined_iff (savedDataOrType : SavedDataOrType Payload) :
  (OutputFactory_make Payload savedDataOrType = None ↔
     ∃ type, given_type savedDataOrType = Some type ∧ type ∉ output_types)
  ∧ ∀ c arg, OutputFactory_make Payload savedDataOrType = Some (c, arg) →
      (c = OutputBit ↔ given_type savedDataOrType = None)
      ∧ arg = match savedDataOrType with
              | SavedData savedData => Some savedData
              | _ => None
              end.
Proof.
  pose proof (OutputFactory_make_cases savedDataOrType) as Hcases. simpl in Hcases.
  destruct (given_type savedDataOrType) as [type|] eqn:Hgiven.
  - destruct Hcases as [[Hin (c0 & Hc0 & Hmake)]|[Hnot Hmake]]; rewrite Hmake.
    + split.
      * split; [done|]. intros (t & [= <-] & Hnot). done.
      * intros c arg [= <- <-]. split; [|done]. split; done.
    + split; [|done]. split; [|done]. intros _. by exists type.
  - rewrite Hcases. split.
    + split; [done|]. intros (t & Ht & _). done.
    + intros c arg [= <- <-]. done.
Qed.

(** A button of the category [out].  Whatever the other three factories
    are: the button gets a maker; run on the components of the editor, the
    maker throws exactly when the button names an output type that is not one
    of the six, and otherwise returns a blank output (no saved data), an
    [OutputBit] if the button names no type, and pushes it, and nothing else,
    at the end of the components. *)
Theorem ComponentFactory_output_button
    (InputFactory GateFactory ICFactory : option string → option (Output Payload))
    (type : option string) (html : string) (components : list (Output Payload)) :
  let OutputFactory := λ type : option string,
    OutputFactory_make Payload
      (match type with Some t => TypeString t | None => Undefined end) in
  let elem := {| dataset_component := Some "out"%string; dataset_type := type;
                 outerHTML := html |} in
  ∃ maker,
    makeFactoryForButton (Output Payload) InputFactory OutputFactory GateFactory ICFactory elem
    = Returned maker
    ∧ match type with
      | Some t =>
          if bool_decide (t ∈ output_types)
          then ∃ c, c ≠ OutputBit
                    ∧ maker components = Returned ((c, None), components ++ [(c, None)])
          else maker components
               = Error ("undefined 'out' type - elem: " +:+ html)
      | None =>
          maker components
          = Returned ((OutputBit, None), components ++ [(OutputBit, None)])
      end.
Proof.
  intros OutputFactory elem. eexists. split; [reflexivity|].
  unfold makeFactory_make, OutputFactory, elem. cbn [dataset_type outerHTML].
  destruct type as [t|].
  - pose proof (OutputFactory_make_cases (TypeString t : SavedDataOrType Payload)) as Hcases.
    cbn [given_type] in Hcases.
    destruct Hcases as [[Hin (c & Hc & ->)]|[Hnot ->]].
    + rewrite bool_decide_eq_true_2 by done. by exists c.
    + rewrite bool_decide_eq_false_2 by done. reflexivity.
  - reflexivity.
Qed.

(** Making the factory of a button throws exactly when the category of the
    button is missing or is none of [in], [out], [gate], [component],
    whatever the four factories are; no component is made then. *)
Theorem ComponentFactory_bad_category {C}
    (InputFactory OutputFactory GateFactory ICFactory : option string → option C)
    (elem : Button) :
  (∃ message,
     makeFactoryForButton C InputFactory OutputFactory GateFactory ICFactory elem
     = Error message)
  ↔ (∀ compType, dataset_component elem = Some compType →
                 compType ∉ ["in"; "out"; "gate"; "component"]%string).
Proof.
  unfold makeFactoryForButton.
  destruct (dataset_component elem) as [compType|]; cbn; [|split; [done|by eexists]].
  unfold ComponentFactoryTypes.
  repeat match goal with
         | |- context [String.eqb compType ?name] =>
             destruct (String.eqb_spec compType name) as [->|?];
             [split; [by intros [? ?]|];
              intros Hbad; exfalso; apply (Hbad _ eq_refl);
              repeat first [apply list_elem_of_here | apply list_elem_of_further]|]
         end.
  split; [|by eexists]. intros _ t [= <-].
  rewrite !not_elem_of_cons. split_and!; try done. apply not_elem_of_nil.
Qed.

End Factory_facts.
